(** * dns-exporter: the collection cycle of [main.go]

    A shallow embedding of [NewDNSCollector], [Collect] and [resolveHost]
    and of the few functions of the Prometheus client they call.

    The goroutines of [Collect] are modelled by an interleaving semantics:
    a [World] holds the collector, the goroutines with their program
    counters and local variables, and the pending calls of [Collect];
    [step] executes one statement of one goroutine or of one call.  The
    scheduler, the resolver's answers, the passing of time and the arrival
    of scrapes are the [Action]s, chosen by the environment.

    Modelling choices.
    - Go's [int] is the 64-bit two's complement integer of the 64-bit
      targets: a [Z] wrapped by [wrap64] after each addition.
    - [m[k] += 1] on a map is a load followed by a store; a missing key
      reads as the zero value.
    - [float64(n)] and [Duration.Seconds()] are kept symbolic ([FromInt],
      [Seconds]); no floating point arithmetic is modelled.
    - Every single map access is one step, also the reads of lines 105
      and 106 that no mutex protects ([racy] names the states in which
      such a read meets a write).  Such a read either runs or, while
      another goroutine is inside the [+= 1] of the same map, is caught
      by the runtime, which aborts the process ([Detect], [fault]); the
      runtime looks on a best effort, so the abort is a move of the
      environment.  An aborted process runs no further statement: the
      reachable worlds are those of the runs up to an abort.
    - The channel [ch] is a list the samples are appended to (the
      registry always receives).
    - [MustNewConstMetric] panics on a label count mismatch, the check of
      the client's [NewConstMetric].
    - [time.Now] reads a clock in nanoseconds that [Tick] advances. *)

From stdpp Require Import base option list gmap strings numbers.
From Stdlib Require Import ZArith Lia.

Open Scope string_scope.
Open Scope list_scope.
Open Scope Z_scope.

(** ** The Prometheus client, as far as the collector uses it *)

Module prometheus.

(** [strings.Join] with the separator ["_"], on the parts that
    [BuildFQName] keeps. *)
Definition BuildFQName (namespace subsystem name : string) : string :=
  if decide (name = EmptyString) then EmptyString
  else if decide (namespace ≠ EmptyString ∧ subsystem ≠ EmptyString)
    then namespace +:+ "_" +:+ subsystem +:+ "_" +:+ name
  else if decide (namespace ≠ EmptyString) then namespace +:+ "_" +:+ name
  else if decide (subsystem ≠ EmptyString) then subsystem +:+ "_" +:+ name
  else name.

(** A descriptor; the collector passes [nil] as constant labels. *)
Record Desc := mkDesc {
  fqName : string;
  help : string;
  variableLabels : list string }.

Definition NewDesc (fq hlp : string) (labels : list string) : Desc :=
  mkDesc fq hlp labels.

Inductive ValueType := CounterValue | GaugeValue.

(** The [float64] handed to [MustNewConstMetric]: either [float64(n)] for
    an [int] n, or [d.Seconds()] for a duration of d nanoseconds. *)
Inductive Value := FromInt (n : Z) | Seconds (d : Z).

Record Metric := mkMetric {
  desc : Desc;
  valType : ValueType;
  value : Value;
  labelValues : list string }.

(** [NewConstMetric] fails when the label values do not match the
    variable labels of the descriptor; [MustNewConstMetric] panics on
    that failure, which is [None] here. *)
Definition MustNewConstMetric (d : Desc) (vt : ValueType) (v : Value)
    (lvs : list string) : option Metric :=
  if decide (length lvs = length (variableLabels d))
  then Some (mkMetric d vt v lvs) else None.

#[global] Instance Desc_eq_dec : EqDecision Desc.
Proof. solve_decision. Defined.
#[global] Instance ValueType_eq_dec : EqDecision ValueType.
Proof. solve_decision. Defined.
#[global] Instance Value_eq_dec : EqDecision Value.
Proof. solve_decision. Defined.
#[global] Instance Metric_eq_dec : EqDecision Metric.
Proof. solve_decision. Defined.

End prometheus.

Import prometheus.

(** ** The collector *)

Definition Namespace : string := "dns_exporter".

Record Config := mkConfig { Hosts : list string }.

(** Go's [int]: 64 bits, two's complement. *)
Definition wrap64 (z : Z) : Z := (z + 2 ^ 63) mod 2 ^ 64 - 2 ^ 63.

(** The struct [DNSCollector]; a [sync.Mutex] is its locked flag. *)
Record DNSCollector := mkDNSCollector {
  total : Desc;
  totalError : Desc;
  latency : Desc;
  hosts : list string;
  totalCount : gmap string Z;
  totalCountMutex : bool;
  totalErrorCount : gmap string Z;
  totalErrorCountMutex : bool }.

(** [NewDNSCollector] returns a pointer and an error: the pointer is
    [Some] collector (it is the address of a composite literal), the error
    is [None] for [nil]. *)
Definition NewDNSCollector (config : Config) : option DNSCollector * option string :=
  let dnsCollector :=
    {| total := NewDesc (BuildFQName Namespace EmptyString "resolution_total")
                  "Total number of DNS resolutions." ["host"];
       totalError := NewDesc (BuildFQName Namespace EmptyString "resolution_error_total")
                  "Total number of DNS resolution errors." ["host"];
       latency := NewDesc (BuildFQName Namespace EmptyString "resolution_seconds")
                  "Time taken to resolve DNS." ["host"];
       hosts := Hosts config;
       totalCount := ∅;
       totalCountMutex := false;
       totalErrorCount := ∅;
       totalErrorCountMutex := false |} in
  (Some dnsCollector, None).

(** [Describe] sends the three descriptors. *)
Definition Describe (e : DNSCollector) (ch : list Desc) : list Desc :=
  ch ++ [total e; totalError e; latency e].

(** ** Goroutines and calls *)

(** The two count maps, each with its mutex. *)
Inductive Table := Total | Errors.

#[global] Instance Table_eq_dec : EqDecision Table.
Proof. solve_decision. Defined.

Definition table (m : Table) (e : DNSCollector) : gmap string Z :=
  match m with Total => totalCount e | Errors => totalErrorCount e end.

Definition mutex (m : Table) (e : DNSCollector) : bool :=
  match m with Total => totalCountMutex e | Errors => totalErrorCountMutex e end.

Definition set_table (m : Table) (t : gmap string Z) (e : DNSCollector) : DNSCollector :=
  match m with
  | Total => mkDNSCollector (total e) (totalError e) (latency e) (hosts e)
               t (totalCountMutex e) (totalErrorCount e) (totalErrorCountMutex e)
  | Errors => mkDNSCollector (total e) (totalError e) (latency e) (hosts e)
               (totalCount e) (totalCountMutex e) t (totalErrorCountMutex e)
  end.

Definition set_mutex (m : Table) (b : bool) (e : DNSCollector) : DNSCollector :=
  match m with
  | Total => mkDNSCollector (total e) (totalError e) (latency e) (hosts e)
               (totalCount e) b (totalErrorCount e) (totalErrorCountMutex e)
  | Errors => mkDNSCollector (total e) (totalError e) (latency e) (hosts e)
               (totalCount e) (totalCountMutex e) (totalErrorCount e) b
  end.

(** Reading a Go map: the zero value for a missing key. *)
Definition get (t : gmap string Z) (host : string) : Z := default 0 (t !! host).

(** Program points of [resolveHost]: the statement about to run, by its
    line in main.go.  [e.totalCount[host] += 1] is a load and a store. *)
Inductive PC :=
| LNow          (* 88  start := time.Now() *)
| LLookup       (* 90  _, err := net.LookupHost(host) *)
| LErrLock      (* 92  e.totalErrorCountMutex.Lock() *)
| LErrLoad      (* 93  read of e.totalErrorCount[host] *)
| LErrStore     (* 93  write of e.totalErrorCount[host] *)
| LErrUnlock    (* 94  e.totalErrorCountMutex.Unlock() *)
| LLog          (* 96  log.Printf *)
| LSince        (* 99  elapsed := time.Since(start) *)
| LTotLock      (* 101 e.totalCountMutex.Lock() *)
| LTotLoad      (* 102 read of e.totalCount[host] *)
| LTotStore     (* 102 write of e.totalCount[host] *)
| LTotUnlock    (* 103 e.totalCountMutex.Unlock() *)
| LSendTotal    (* 105 *)
| LSendError    (* 106 *)
| LSendLatency  (* 107 *)
| LDone         (* 78  the deferred wg.Done() *)
| LExit.

#[global] Instance PC_eq_dec : EqDecision PC.
Proof. solve_decision. Defined.

(** A goroutine launched by [Collect]: the call it belongs to (whose
    [wg] it shares), its argument and the locals of [resolveHost];
    [g_tmp] is the value read by the load of a [+= 1]. *)
Record Goroutine := mkG {
  g_call : nat;
  g_host : string;
  g_pc : PC;
  g_start : Z;
  g_err : option string;
  g_elapsed : Z;
  g_tmp : Z }.

Definition spawn (c : nat) (host : string) : Goroutine :=
  mkG c host LNow 0 None 0 0.

Definition at_pc (pc : PC) (G : Goroutine) : Goroutine :=
  mkG (g_call G) (g_host G) pc (g_start G) (g_err G) (g_elapsed G) (g_tmp G).
Definition set_start (t : Z) (G : Goroutine) : Goroutine :=
  mkG (g_call G) (g_host G) (g_pc G) t (g_err G) (g_elapsed G) (g_tmp G).
Definition set_err (err : option string) (G : Goroutine) : Goroutine :=
  mkG (g_call G) (g_host G) (g_pc G) (g_start G) err (g_elapsed G) (g_tmp G).
Definition set_elapsed (d : Z) (G : Goroutine) : Goroutine :=
  mkG (g_call G) (g_host G) (g_pc G) (g_start G) (g_err G) d (g_tmp G).
Definition set_tmp (v : Z) (G : Goroutine) : Goroutine :=
  mkG (g_call G) (g_host G) (g_pc G) (g_start G) (g_err G) (g_elapsed G) v.

(** Program points of [Collect]: before [wg.Add] (line 74); in the range
    loop with the hosts still to launch (76), which with none left is
    [wg.Wait()] (84); returned. *)
Inductive CallPC := CAdd | CRange (rest : list string) | CRet.

(** A call of [Collect] with the counter of its [wg]. *)
Record Call := mkCall { c_pc : CallPC; c_wg : Z }.

Record World := mkWorld {
  coll : DNSCollector;
  clock : Z;
  ch : list Metric;
  logs : list string;
  gs : list Goroutine;
  calls : list Call }.

Definition put_coll (e : DNSCollector) (w : World) : World :=
  mkWorld e (clock w) (ch w) (logs w) (gs w) (calls w).
Definition put_clock (t : Z) (w : World) : World :=
  mkWorld (coll w) t (ch w) (logs w) (gs w) (calls w).
Definition put_ch (l : list Metric) (w : World) : World :=
  mkWorld (coll w) (clock w) l (logs w) (gs w) (calls w).
Definition put_logs (l : list string) (w : World) : World :=
  mkWorld (coll w) (clock w) (ch w) l (gs w) (calls w).
Definition put_gs (l : list Goroutine) (w : World) : World :=
  mkWorld (coll w) (clock w) (ch w) (logs w) l (calls w).
Definition put_calls (l : list Call) (w : World) : World :=
  mkWorld (coll w) (clock w) (ch w) (logs w) (gs w) l.

(** ** Steps *)

(** What one statement of [resolveHost] does. *)
Inductive Op :=
| OpNow (t : Z)
| OpLookup (err : option string)
| OpLock (m : Table)
| OpLoad (m : Table) (key : string) (v : Z)
| OpStore (m : Table) (key : string) (v : Z)
| OpUnlock (m : Table)
| OpLog (msg : string)
| OpSince (t : Z)
| OpSend (m : Metric)
| OpDone.

Inductive Event :=
| EvTick (d : Z)
| EvScrape (c : nat)
| EvAdd (c : nat) (n : Z)
| EvSpawn (c : nat) (g : nat) (host : string)
| EvWait (c : nat)
| EvGo (g : nat) (op : Op).

(** The environment's moves: time passes; a scrape calls [Collect]; the
    scheduler runs the next statement of a call or of a goroutine; the
    resolver answers the lookup of a goroutine ([None] for a nil error);
    the runtime detects that the map read of a goroutine meets a write. *)
Inductive Action :=
| Tick (d : Z)
| Scrape
| CallStep (c : nat)
| Go (g : nat)
| Resolve (g : nat) (err : option string)
| Detect (g : nat).

(** What the environment contributes to a statement: nothing; the
    resolver's answer, at line 90; the runtime's detection of a concurrent
    map access, at the reads of lines 105 and 106. *)
Inductive Input := Run | Answer (err : option string) | Detected.

(** [Blocked]: the statement cannot run now (a held mutex, a positive
    [wg], nothing left to run, or an action that does not apply). *)
Inductive Result :=
| Ok (ev : Event) (w : World)
| Blocked
| Panic (msg : string).

(** [time.Since]: a [Duration] is an int64 and [Sub] saturates. *)
Definition Since (now start : Z) : Z :=
  Z.max (- 2 ^ 63) (Z.min (2 ^ 63 - 1) (now - start)).

(** The message of line 96. *)
Definition lookup_message (host : string) (err : option string) : string :=
  "could not lookup host '" +:+ host +:+ "': " +:+ default "%!s(<nil>)" err.

(** The goroutine has read [m] and is about to write it back. *)
Definition at_store (m : Table) (G : Goroutine) : bool :=
  match m, g_pc G with
  | Total, LTotStore => true
  | Errors, LErrStore => true
  | _, _ => false
  end.

(** Some goroutine is inside the [+= 1] of the map [m]. *)
Definition writing (m : Table) (w : World) : bool := existsb (at_store m) (gs w).

(** A read of a map without its mutex: the Go runtime aborts the process
    when it finds the map being written ("fatal error", no recovery); it
    looks on a best effort, so the abort is the environment's move. *)
Definition fault (w : World) (m : Table) : Result :=
  if writing m w then Panic "fatal error: concurrent map read and map write"
  else Blocked.

Definition send (w : World) (g : nat) (G : Goroutine) (next : PC)
    (m : option Metric) : Result :=
  match m with
  | Some m => Ok (EvGo g (OpSend m)) (put_ch (ch w ++ [m]) (put_gs (<[g := at_pc next G]> (gs w)) w))
  | None => Panic "inconsistent label cardinality"
  end.

Definition lock (w : World) (g : nat) (G : Goroutine) (m : Table) (next : PC) : Result :=
  if mutex m (coll w) then Blocked
  else Ok (EvGo g (OpLock m))
          (put_coll (set_mutex m true (coll w)) (put_gs (<[g := at_pc next G]> (gs w)) w)).

Definition unlock (w : World) (g : nat) (G : Goroutine) (m : Table) (next : PC) : Result :=
  if mutex m (coll w)
  then Ok (EvGo g (OpUnlock m))
          (put_coll (set_mutex m false (coll w)) (put_gs (<[g := at_pc next G]> (gs w)) w))
  else Panic "sync: unlock of unlocked mutex".

Definition load (w : World) (g : nat) (G : Goroutine) (m : Table) (next : PC) : Result :=
  let v := get (table m (coll w)) (g_host G) in
  Ok (EvGo g (OpLoad m (g_host G) v)) (put_gs (<[g := at_pc next (set_tmp v G)]> (gs w)) w).

Definition store (w : World) (g : nat) (G : Goroutine) (m : Table) (next : PC) : Result :=
  let v := wrap64 (g_tmp G + 1) in
  Ok (EvGo g (OpStore m (g_host G) v))
     (put_coll (set_table m (<[g_host G := v]> (table m (coll w))) (coll w))
        (put_gs (<[g := at_pc next G]> (gs w)) w)).

(** One statement of [resolveHost] in goroutine [g], with what the
    environment contributes: the resolver's answer is consumed at line 90
    only; the reads of [e.totalCount] and [e.totalErrorCount] at lines 105
    and 106 hold no mutex, so they either run or, when the runtime detects
    a writer of the same map, abort the process. *)
Definition resolveHost_step (w : World) (g : nat) (G : Goroutine)
    (inp : Input) : Result :=
  let e := coll w in
  let host := g_host G in
  match g_pc G, inp with
  | LNow, Run =>
      Ok (EvGo g (OpNow (clock w)))
         (put_gs (<[g := at_pc LLookup (set_start (clock w) G)]> (gs w)) w)
  | LLookup, Answer err =>
      Ok (EvGo g (OpLookup err))
         (put_gs (<[g := at_pc (if err is Some _ then LErrLock else LSince) (set_err err G)]> (gs w)) w)
  | LErrLock, Run => lock w g G Errors LErrLoad
  | LErrLoad, Run => load w g G Errors LErrStore
  | LErrStore, Run => store w g G Errors LErrUnlock
  | LErrUnlock, Run => unlock w g G Errors LLog
  | LLog, Run =>
      let msg := lookup_message host (g_err G) in
      Ok (EvGo g (OpLog msg))
         (put_logs (logs w ++ [msg]) (put_gs (<[g := at_pc LSince G]> (gs w)) w))
  | LSince, Run =>
      Ok (EvGo g (OpSince (clock w)))
         (put_gs (<[g := at_pc LTotLock (set_elapsed (Since (clock w) (g_start G)) G)]> (gs w)) w)
  | LTotLock, Run => lock w g G Total LTotLoad
  | LTotLoad, Run => load w g G Total LTotStore
  | LTotStore, Run => store w g G Total LTotUnlock
  | LTotUnlock, Run => unlock w g G Total LSendTotal
  | LSendTotal, Run =>
      send w g G LSendError
        (MustNewConstMetric (total e) CounterValue (FromInt (get (totalCount e) host)) [host])
  | LSendTotal, Detected => fault w Total
  | LSendError, Run =>
      send w g G LSendLatency
        (MustNewConstMetric (totalError e) CounterValue (FromInt (get (totalErrorCount e) host)) [host])
  | LSendError, Detected => fault w Errors
  | LSendLatency, Run =>
      send w g G LDone
        (MustNewConstMetric (latency e) GaugeValue (Seconds (g_elapsed G)) [host])
  | LDone, Run =>
      match calls w !! g_call G with
      | Some C =>
          if decide (c_wg C - 1 < 0) then Panic "sync: negative WaitGroup counter"
          else Ok (EvGo g OpDone)
                  (put_calls (<[g_call G := mkCall (c_pc C) (c_wg C - 1)]> (calls w))
                     (put_gs (<[g := at_pc LExit G]> (gs w)) w))
      | None => Blocked
      end
  | _, _ => Blocked
  end.

(** One statement of the call [c] of [Collect]. *)
Definition Collect_step (w : World) (c : nat) (C : Call) : Result :=
  match c_pc C with
  | CAdd =>
      let n := Z.of_nat (length (hosts (coll w))) in
      if decide (c_wg C + n < 0) then Panic "sync: negative WaitGroup counter"
      else Ok (EvAdd c n)
              (put_calls (<[c := mkCall (CRange (hosts (coll w))) (c_wg C + n)]> (calls w)) w)
  | CRange (host :: rest) =>
      Ok (EvSpawn c (length (gs w)) host)
         (put_calls (<[c := mkCall (CRange rest) (c_wg C)]> (calls w))
            (put_gs (gs w ++ [spawn c host]) w))
  | CRange [] =>
      if decide (c_wg C = 0)
      then Ok (EvWait c) (put_calls (<[c := mkCall CRet (c_wg C)]> (calls w)) w)
      else Blocked
  | CRet => Blocked
  end.

Definition step (w : World) (a : Action) : Result :=
  match a with
  | Tick d =>
      if decide (0 ≤ d) then Ok (EvTick d) (put_clock (clock w + d) w) else Blocked
  | Scrape =>
      Ok (EvScrape (length (calls w))) (put_calls (calls w ++ [mkCall CAdd 0]) w)
  | CallStep c =>
      match calls w !! c with Some C => Collect_step w c C | None => Blocked end
  | Go g =>
      match gs w !! g with Some G => resolveHost_step w g G Run | None => Blocked end
  | Resolve g err =>
      match gs w !! g with Some G => resolveHost_step w g G (Answer err) | None => Blocked end
  | Detect g =>
      match gs w !! g with Some G => resolveHost_step w g G Detected | None => Blocked end
  end.

(** A schedule runs while every step is [Ok]; it yields the events and
    the final world. *)
Fixpoint run (w : World) (acts : list Action) : option (list Event * World) :=
  match acts with
  | [] => Some ([], w)
  | a :: acts =>
      match step w a with
      | Ok ev w' =>
          match run w' acts with
          | Some (evs, w'') => Some (ev :: evs, w'')
          | None => None
          end
      | _ => None
      end
  end.

(** [main] up to the registration of the collector: a construction error
    is fatal. *)
Definition boot (config : Config) : option World :=
  match NewDNSCollector config with
  | (Some e, None) => Some (mkWorld e 0 [] [] [] [])
  | _ => None
  end.

(** The worlds the exporter can be in, with the events that led there. *)
Definition reachable (config : Config) (evs : list Event) (w : World) : Prop :=
  ∃ w0 acts, boot config = Some w0 ∧ run w0 acts = Some (evs, w).

(** What a schedule yields from the start of the exporter. *)
Definition outcome (config : Config) (acts : list Action) : option (list Event * World) :=
  match boot config with Some w0 => run w0 acts | None => None end.

(** The statements goroutine [g] has run, in order. *)
Definition ops_of (g : nat) (evs : list Event) : list Op :=
  omap (λ ev, match ev with
              | EvGo g' op => if decide (g' = g) then Some op else None
              | _ => None
              end) evs.

(** ** Measures on worlds *)

(** How many elements satisfy [p]. *)
Definition tally {A} (p : A → bool) (l : list A) : nat :=
  sum_list_with (λ x, if p x then 1%nat else 0%nat) l.
Arguments tally {A} p l : simpl never.

(** How often [host] is listed. *)
Definition occurrences (host : string) (l : list string) : nat :=
  tally (λ x, bool_decide (x = host)) l.
Arguments occurrences host l : simpl never.

(** The position of a program point in [resolveHost]. *)
Definition index (pc : PC) : nat :=
  match pc with
  | LNow => 0 | LLookup => 1 | LErrLock => 2 | LErrLoad => 3 | LErrStore => 4
  | LErrUnlock => 5 | LLog => 6 | LSince => 7 | LTotLock => 8 | LTotLoad => 9
  | LTotStore => 10 | LTotUnlock => 11 | LSendTotal => 12 | LSendError => 13
  | LSendLatency => 14 | LDone => 15 | LExit => 16
  end%nat.

(** The goroutine is between [Lock] and [Unlock] of the mutex of [m]. *)
Definition in_cs (m : Table) (G : Goroutine) : bool :=
  match m, g_pc G with
  | Total, (LTotLoad | LTotStore | LTotUnlock) => true
  | Errors, (LErrLoad | LErrStore | LErrUnlock) => true
  | _, _ => false
  end.

(** The goroutine has run its increment of [m]. *)
Definition stored (m : Table) (G : Goroutine) : bool :=
  match m with
  | Total => (11 <=? index (g_pc G))%nat
  | Errors => (5 <=? index (g_pc G))%nat && (if g_err G is Some _ then true else false)
  end.

(** ... for [host]. *)
Definition counted (m : Table) (host : string) (G : Goroutine) : bool :=
  bool_decide (g_host G = host) && stored m G.

(** The goroutine is about to read [m] for a sample (lines 105, 106). *)
Definition reads (m : Table) (G : Goroutine) : bool :=
  match m, g_pc G with
  | Total, LSendTotal => true
  | Errors, LSendError => true
  | _, _ => false
  end.

(** A goroutine is about to read the map [m] while another one, holding
    the mutex, is about to write it. *)
Definition racy (m : Table) (w : World) : Prop :=
  ∃ g G g' G', g ≠ g' ∧
    gs w !! g = Some G ∧ reads m G = true ∧
    gs w !! g' = Some G' ∧ at_store m G' = true.

(** A probe of [host] that has incremented the error count and not yet
    the attempt count. *)
Definition ahead (host : string) (G : Goroutine) : bool :=
  counted Errors host G && negb (counted Total host G).

Definition hosted (host : string) (G : Goroutine) : bool :=
  bool_decide (g_host G = host).

(** A goroutine of call [c] that has not run its [wg.Done()]. *)
Definition live (c : nat) (G : Goroutine) : bool :=
  bool_decide (g_call G = c) && negb (bool_decide (g_pc G = LExit)).

(** The goroutines a call has still to launch. *)
Definition pending (C : Call) : list string :=
  match c_pc C with CRange rest => rest | _ => [] end.

Definition started (C : Call) : bool :=
  match c_pc C with CAdd => false | _ => true end.

Definition returned (C : Call) : bool :=
  match c_pc C with CRet => true | _ => false end.

(** Every call of [Collect] so far has returned. *)
Definition quiescent (w : World) : Prop := forallb returned (calls w) = true.

Definition probe (g : nat) (err : option string) : list Action :=
  [Go g; Resolve g err] ++
  (if err is Some _ then [Go g; Go g; Go g; Go g; Go g] else []) ++
  [Go g; Go g; Go g; Go g; Go g; Go g; Go g; Go g; Go g].

(** ** The invariant of the interleaving semantics *)

Record Inv (config : Config) (w : World) : Prop := mkInv {
  (* the collector's descriptors and registry are never assigned *)
  inv_static : ∃ e0, NewDNSCollector config = (Some e0, None) ∧
      total (coll w) = total e0 ∧ totalError (coll w) = totalError e0 ∧
      latency (coll w) = latency e0 ∧ hosts (coll w) = hosts e0;
  (* a mutex is locked exactly while one goroutine is in its section *)
  inv_mutex : ∀ m, tally (in_cs m) (gs w) = if mutex m (coll w) then 1%nat else 0%nat;
  (* the value loaded by [+= 1] is still the stored one *)
  inv_tmp : ∀ m g G, gs w !! g = Some G → at_store m G = true →
      g_tmp G = get (table m (coll w)) (g_host G);
  (* a count is the number of increments run, as an int *)
  inv_count : ∀ m host,
      get (table m (coll w)) host = wrap64 (Z.of_nat (tally (counted m host) (gs w)));
  (* the error branch is entered with a non-nil error only *)
  inv_err : ∀ g G, gs w !! g = Some G → (2 ≤ index (g_pc G) ≤ 6)%nat → is_Some (g_err G);
  inv_call : ∀ g G, gs w !! g = Some G → (g_call G < length (calls w))%nat;
  (* the counter of a wg: goroutines to launch plus goroutines running *)
  inv_wg : ∀ c C, calls w !! c = Some C →
      c_wg C = Z.of_nat (length (pending C) + tally (live c) (gs w));
  inv_ret : ∀ c C, calls w !! c = Some C → returned C = true → c_wg C = 0;
  (* every started call launches one goroutine per listed host *)
  inv_hosts : ∀ host,
      (tally (hosted host) (gs w) + sum_list_with (λ C, occurrences host (pending C)) (calls w)
       = occurrences host (Hosts config) * tally started (calls w))%nat }.

(** ** A scheduler *)

(** The goroutine can run its next statement. *)
Definition runnable (e : DNSCollector) (G : Goroutine) : bool :=
  match g_pc G with
  | LExit => false
  | LErrLock => negb (totalErrorCountMutex e)
  | LTotLock => negb (totalCountMutex e)
  | _ => true
  end.

Definition call_runnable (C : Call) : bool :=
  match c_pc C with
  | CRet => false
  | CRange [] => bool_decide (c_wg C = 0)
  | _ => true
  end.

(** The first goroutine that can run, else the first call that can;
    the resolver answers the lookup of goroutine [g] with [answers g]. *)
Definition schedule (answers : nat → option string) (w : World) : option Action :=
  match list_find (λ G, runnable (coll w) G = true) (gs w) with
  | Some (g, G) =>
      Some (if decide (g_pc G = LLookup) then Resolve g (answers g) else Go g)
  | None =>
      match list_find (λ C, call_runnable C = true) (calls w) with
      | Some (c, _) => Some (CallStep c)
      | None => None
      end
  end.

(** The schedule that runs the scheduler for [fuel] steps. *)
Fixpoint drive (fuel : nat) (answers : nat → option string) (w : World) : list Action :=
  match fuel with
  | O => []
  | S fuel =>
      match schedule answers w with
      | Some a =>
          match step w a with
          | Ok _ w' => a :: drive fuel answers w'
          | _ => []
          end
      | None => []
      end
  end.

(** A bound on the statements still to run: 16 per goroutine launched,
    less those run, and 17 per goroutine to launch. *)
Definition call_work (n : nat) (C : Call) : nat :=
  match c_pc C with
  | CAdd => n * 17 + 2
  | CRange rest => length rest * 17 + 1
  | CRet => 0
  end.

Definition work (w : World) : nat :=
  sum_list_with (λ G, 16 - index (g_pc G))%nat (gs w) +
  sum_list_with (call_work (length (hosts (coll w)))) (calls w).

(** The resolver's answers in a schedule are those of [answers]. *)
Definition follows (answers : nat → option string) (acts : list Action) : Prop :=
  ∀ a, a ∈ acts →
    match a with
    | Resolve g r => r = answers g
    | Go _ | CallStep _ => True
    | Tick _ | Scrape | Detect _ => False
    end.

(** ** Histories *)

(** A whole run of [resolveHost], statement by statement: [t1] and [t2]
    are the clock readings of lines 88 and 99, [v1] and [v2] the counts
    loaded at lines 93 and 102, [a] and [b] the counts read at lines 105
    and 106. *)
Definition script (e : DNSCollector) (host : string) (t1 : Z) (err : option string)
    (v1 t2 v2 a b : Z) : list Op :=
  [OpNow t1; OpLookup err] ++
  (if err is Some _ then
     [OpLock Errors; OpLoad Errors host v1; OpStore Errors host (wrap64 (v1 + 1));
      OpUnlock Errors; OpLog (lookup_message host err)]
   else []) ++
  [OpSince t2; OpLock Total; OpLoad Total host v2; OpStore Total host (wrap64 (v2 + 1));
   OpUnlock Total;
   OpSend (mkMetric (total e) CounterValue (FromInt a) [host]);
   OpSend (mkMetric (totalError e) CounterValue (FromInt b) [host]);
   OpSend (mkMetric (latency e) GaugeValue (Seconds (Since t2 t1)) [host]);
   OpDone].

(** The number of statements a goroutine has run. *)
Definition progress (G : Goroutine) : nat :=
  match g_err G with
  | Some _ => index (g_pc G)
  | None => if (7 <=? index (g_pc G))%nat then (index (g_pc G) - 5)%nat else index (g_pc G)
  end.

(** [ops] is what a goroutine in the state [G] has run. *)
Definition history (e : DNSCollector) (G : Goroutine) (ops : list Op) : Prop :=
  ∃ v1 t2 v2 a b,
    ops = take (progress G) (script e (g_host G) (g_start G) (g_err G) v1 t2 v2 a b)
    ∧ ((8 ≤ index (g_pc G))%nat → g_elapsed G = Since t2 (g_start G))
    ∧ (g_pc G = LErrStore → g_tmp G = v1)
    ∧ (g_pc G = LTotStore → g_tmp G = v2).

(** Every goroutine has its history, and no goroutine ran before it was
    launched. *)
Definition histories (evs : list Event) (w : World) : Prop :=
  (∀ g G, gs w !! g = Some G → history (coll w) G (ops_of g evs)) ∧
  (∀ g, (length (gs w) ≤ g)%nat → ops_of g evs = []).

Definition is_store (m : Table) (op : Op) : bool :=
  match op with OpStore m' _ _ => bool_decide (m' = m) | _ => false end.

Definition is_send (op : Op) : bool :=
  match op with OpSend _ => true | _ => false end.

Definition is_log (op : Op) : bool :=
  match op with OpLog _ => true | _ => false end.

(** The samples among the statements run. *)
Definition sends (ops : list Op) : list Metric :=
  omap (λ op, match op with OpSend m => Some m | _ => None end) ops.

(** In [ops], whatever satisfies [p] comes before whatever satisfies [q]. *)
Definition precedes (p q : Op → bool) (ops : list Op) : Prop :=
  ∀ i j x y, ops !! i = Some x → ops !! j = Some y →
    p x = true → q y = true → (i < j)%nat.




(** ** Schedules *)

(** A scrape calls [Collect], which launches its [n] goroutines. *)
Definition launch (c n : nat) : list Action :=
  Scrape :: replicate (S n) (CallStep c).

(** A registry that lists a host twice, probed once. *)
Definition twice_config : Config := mkConfig ["a"; "a"].
Definition twice_schedule : list Action :=
  launch 0 2 ++ probe 0 None ++ probe 1 None ++ [CallStep 0].

(** A failing probe stopped after its increment of the error count. *)
Definition failing_config : Config := mkConfig ["bad.invalid"].
Definition failing_schedule : list Action :=
  launch 0 1 ++ [Go 0; Resolve 0 (Some "no such host"); Go 0; Go 0; Go 0].

(** One cycle on one host whose lookup fails, run to the end. *)
Definition failed_schedule : list Action :=
  launch 0 1 ++ probe 0 (Some "no such host") ++ [CallStep 0].

(** A resolver that always fails. *)
Definition no_such_host : nat → option string := λ _, Some "no such host".

(** A failing probe whose log call takes 5 ns: the lookup starts at 0 and
    fails at 10; line 99 runs at 15. *)
Definition slow_log_schedule : list Action :=
  launch 0 1 ++
  [Go 0; Tick 10; Resolve 0 (Some "no such host"); Go 0; Go 0; Go 0; Go 0; Tick 5;
   Go 0; Go 0; Go 0; Go 0; Go 0; Go 0; Go 0; Go 0; Go 0; Go 0; CallStep 0].


(** The clock after the events. *)
Definition time_after (evs : list Event) : Z :=
  foldr (λ ev t, match ev with EvTick d => d + t | _ => t end) 0 evs.

(** Two hosts: the first probe has unlocked and is about to read its
    count at line 105, the second is inside line 102. *)
Definition two_config : Config := mkConfig ["a"; "b"].
Definition race_schedule : list Action :=
  launch 0 2 ++
  [Go 0; Resolve 0 None; Go 0; Go 0; Go 0; Go 0; Go 0] ++
  [Go 1; Resolve 1 None; Go 1; Go 1; Go 1].

(** One host listed twice: both probes increment, then the first reads. *)
Definition stale_schedule : list Action :=
  launch 0 2 ++
  [Go 0; Resolve 0 None; Go 0; Go 0; Go 0; Go 0; Go 0] ++
  [Go 1; Resolve 1 None; Go 1; Go 1; Go 1; Go 1; Go 1] ++
  [Go 0].

(** Two hosts of which the second fails: the first probe has sent its
    attempt count and is about to read [e.totalErrorCount] at line 106,
    the failing probe is inside line 93. *)
Definition abort_schedule : list Action :=
  launch 0 2 ++
  [Go 0; Resolve 0 None; Go 0; Go 0; Go 0; Go 0; Go 0; Go 0] ++
  [Go 1; Resolve 1 (Some "no such host"); Go 1; Go 1].

(** A sample as [resolveHost] builds them: one of the collector's three
    descriptors with its value type, and one label value. *)
Definition sample_ok (e : DNSCollector) (m : Metric) : Prop :=
  ((desc m = total e ∧ valType m = CounterValue) ∨
   (desc m = totalError e ∧ valType m = CounterValue) ∨
   (desc m = latency e ∧ valType m = GaugeValue)) ∧
  length (labelValues m) = 1%nat.

(** ** Further measures *)

(** The three series of samples, each with its descriptor and with the
    position of the program point that follows its send. *)
Inductive Series := STotal | SError | SLatency.

Definition series_desc (e : DNSCollector) (s : Series) : Desc :=
  match s with STotal => total e | SError => totalError e | SLatency => latency e end.

Definition series_index (s : Series) : nat :=
  match s with STotal => 13 | SError => 14 | SLatency => 15 end%nat.

(** The sample belongs to the series [s] and is labelled with [host]. *)
Definition is_sample (e : DNSCollector) (s : Series) (host : string) (m : Metric) : bool :=
  bool_decide (desc m = series_desc e s) && bool_decide (labelValues m = [host]).

(** A probe of [host] that has sent its sample of the series [s]. *)
Definition has_sent (s : Series) (host : string) (G : Goroutine) : bool :=
  hosted host G && (series_index s <=? index (g_pc G))%nat.

(** A probe that has run line 96. *)
Definition logged (G : Goroutine) : bool :=
  (7 <=? index (g_pc G))%nat && (if g_err G is Some _ then true else false).

(** A probe of [host] whose lookup has failed. *)
Definition failed (host : string) (G : Goroutine) : bool :=
  hosted host G && (2 <=? index (g_pc G))%nat && (if g_err G is Some _ then true else false).

(** A goroutine of the call [c] that probes [host]. *)
Definition launched_by (c : nat) (host : string) (G : Goroutine) : bool :=
  bool_decide (g_call G = c) && hosted host G.

(** Every call has launched its goroutines for the hosts before those it
    has still to launch. *)
Definition due (config : Config) (host : string) (C : Call) : nat :=
  if started C then occurrences host (Hosts config) else 0%nat.
Arguments due config host C : simpl never.

Definition launches (config : Config) (w : World) : Prop :=
  ∀ c C host, calls w !! c = Some C →
    (tally (launched_by c host) (gs w) + occurrences host (pending C)
     = due config host C)%nat.

(** The channel holds, of every series and for every host, the samples
    of the probes that have sent theirs. *)
Definition emitted (w : World) : Prop :=
  ∀ s host, tally (is_sample (coll w) s host) (ch w) = tally (has_sent s host) (gs w).

(** The counts the samples on the channel carry were stored counts: of
    the attempts after at least one increment, of either after at most
    the increments run so far. *)
Definition values_bounded (w : World) : Prop :=
  ∀ m host, m ∈ ch w → labelValues m = [host] →
    (desc m = total (coll w) →
     ∃ k, (1 ≤ k ≤ tally (counted Total host) (gs w))%nat ∧
          value m = FromInt (wrap64 (Z.of_nat k))) ∧
    (desc m = totalError (coll w) →
     ∃ k, (k ≤ tally (counted Errors host) (gs w))%nat ∧
          value m = FromInt (wrap64 (Z.of_nat k))).

(** The clock readings the goroutines hold lie in the past. *)
Definition timed (w : World) : Prop :=
  0 ≤ clock w ∧
  ∀ g G, gs w !! g = Some G →
    ((1 ≤ index (g_pc G))%nat → 0 ≤ g_start G ≤ clock w) ∧
    ((8 ≤ index (g_pc G))%nat → 0 ≤ g_elapsed G ≤ clock w - g_start G).

Definition latencies_bounded (w : World) : Prop :=
  ∀ m, m ∈ ch w → desc m = latency (coll w) →
    ∃ d, value m = Seconds d ∧ 0 ≤ d ≤ clock w.

(** The log holds one line per probe that has run line 96. *)
Definition logbook (w : World) : Prop :=
  length (logs w) = tally logged (gs w) ∧
  ∀ l, l ∈ logs w →
    ∃ g G, gs w !! g = Some G ∧ logged G = true ∧
           l = lookup_message (g_host G) (g_err G).

(** Keys and labels are hosts of the registry. *)
Definition registered (config : Config) (w : World) : Prop :=
  (∀ t host, is_Some (table t (coll w) !! host) → host ∈ Hosts config) ∧
  (∀ m, m ∈ ch w → ∃ host, host ∈ Hosts config ∧ labelValues m = [host]).

(** The samples among the events, in order. *)
Definition sent (evs : list Event) : list Metric :=
  omap (λ ev, match ev with EvGo _ (OpSend m) => Some m | _ => None end) evs.



(** The goroutines that have written to the log, in the order of their
    lines. *)
Definition writers (evs : list Event) : list nat :=
  omap (λ ev, match ev with EvGo g (OpLog _) => Some g | _ => None end) evs.

(** [l] is the line of line 96 for the probe [g], which has run it. *)
Definition line_of (w : World) (l : string) (g : nat) : Prop :=
  ∃ G, gs w !! g = Some G ∧ logged G = true ∧
       l = lookup_message (g_host G) (g_err G).

(** The lines of the log are those of the goroutines [ws], one each and
    in this order, and [ws] are the probes that have run line 96. *)
Definition signed (w : World) (ws : list nat) : Prop :=
  NoDup ws ∧
  (∀ g, g ∈ ws ↔ ∃ G, gs w !! g = Some G ∧ logged G = true) ∧
  Forall2 (line_of w) (logs w) ws.

(** A cycle on two hosts of which the second fails, run to the end. *)
Definition mixed_config : Config := mkConfig ["example.org"; "bad.invalid"].
Definition mixed_schedule : list Action :=
  launch 0 2 ++ [Tick 3] ++ probe 1 (Some "no such host") ++ [Tick 4] ++
  probe 0 None ++ [CallStep 0].

(** * Properties *)

Lemma sum_list_with_insert {A} (f : A → nat) l i x y :
  l !! i = Some x →
  (sum_list_with f (<[i:=y]> l) + f x = sum_list_with f l + f y)%nat.
Proof.
  revert i. induction l as [|z l IH]; intros [|i] Hi; simplify_eq/=; [lia|].
  specialize (IH _ Hi). lia.
Qed.

Section tally.
Context {A : Type} (p : A → bool).

Lemma tally_nil : tally p [] = 0%nat.
Proof. done. Qed.

Lemma tally_cons x l : tally p (x :: l) = ((if p x then 1 else 0) + tally p l)%nat.
Proof. done. Qed.

Lemma tally_app l k : tally p (l ++ k) = (tally p l + tally p k)%nat.
Proof. apply sum_list_with_app. Qed.

Lemma tally_snoc l x : tally p (l ++ [x]) = (tally p l + if p x then 1 else 0)%nat.
Proof. rewrite tally_app, tally_cons, tally_nil. lia. Qed.

Lemma tally_insert l i x y :
  l !! i = Some x →
  (tally p (<[i:=y]> l) + (if p x then 1 else 0)
   = tally p l + (if p y then 1 else 0))%nat.
Proof.
  unfold tally. apply sum_list_with_insert.
Qed.

Lemma tally_lookup l i x : l !! i = Some x → p x = true → (1 ≤ tally p l)%nat.
Proof.
  revert i. induction l as [|z l IH]; intros [|i] Hi Hp; simplify_eq/=;
    rewrite tally_cons.
  - rewrite Hp. lia.
  - specialize (IH _ Hi Hp). lia.
Qed.

Lemma tally_pos l : (1 ≤ tally p l)%nat → ∃ i x, l !! i = Some x ∧ p x = true.
Proof.
  induction l as [|z l IH]; rewrite ?tally_nil, ?tally_cons; [lia|].
  destruct (p z) eqn:Hz; intros H.
  - by exists 0%nat, z.
  - destruct IH as (i & x & ? & ?); [lia|]. by exists (S i), x.
Qed.

Lemma tally_zero l i x : tally p l = 0%nat → l !! i = Some x → p x = false.
Proof.
  intros H0 Hi. destruct (p x) eqn:Hp; [|done].
  pose proof (tally_lookup _ _ _ Hi Hp). lia.
Qed.

Lemma tally_ext (q : A → bool) l :
  (∀ i x, l !! i = Some x → p x = q x) → tally p l = tally q l.
Proof.
  induction l as [|z l IH]; intros H; [done|].
  rewrite !tally_cons, (H 0%nat z eq_refl), IH; [done|].
  intros i x Hi. apply (H (S i) x Hi).
Qed.
End tally.

(** ** Arithmetic of [int] *)

Lemma wrap64_succ z : wrap64 (wrap64 z + 1) = wrap64 (z + 1).
Proof.
  unfold wrap64.
  replace ((z + 2 ^ 63) mod 2 ^ 64 - 2 ^ 63 + 1 + 2 ^ 63)
    with ((z + 2 ^ 63) mod 2 ^ 64 + 1) by lia.
  replace (z + 1 + 2 ^ 63) with ((z + 2 ^ 63) + 1) by lia.
  by rewrite Zplus_mod_idemp_l.
Qed.

Lemma wrap64_small z : - 2 ^ 63 ≤ z < 2 ^ 63 → wrap64 z = z.
Proof. intros H. unfold wrap64. rewrite Z.mod_small; lia. Qed.

(** ** Runs *)

Lemma run_app w acts1 acts2 :
  run w (acts1 ++ acts2) =
  match run w acts1 with
  | Some (evs1, w1) =>
      match run w1 acts2 with
      | Some (evs2, w2) => Some (evs1 ++ evs2, w2)
      | None => None
      end
  | None => None
  end.
Proof.
  revert w. induction acts1 as [|a acts1 IH]; intros w; simpl.
  - by destruct (run w acts2) as [[evs2 w2]|].
  - destruct (step w a) as [ev w'| |]; [|done..].
    rewrite IH. destruct (run w' acts1) as [[evs1 w1]|]; [|done].
    by destruct (run w1 acts2) as [[evs2 w2]|].
Qed.

Lemma run_snoc w acts a evs w' :
  run w (acts ++ [a]) = Some (evs, w') →
  ∃ evs0 w0 ev, run w acts = Some (evs0, w0) ∧ step w0 a = Ok ev w' ∧ evs = evs0 ++ [ev].
Proof.
  rewrite run_app. destruct (run w acts) as [[evs0 w0]|]; [|done].
  simpl. destruct (step w0 a) as [ev w1| |] eqn:Hs; [|done..].
  intros ?; simplify_eq. eauto 6.
Qed.

(** Induction over the runs from a world. *)
Lemma run_ind (P : list Event → World → Prop) w0 :
  P [] w0 →
  (∀ evs w a ev w', P evs w → step w a = Ok ev w' → P (evs ++ [ev]) w') →
  ∀ acts evs w, run w0 acts = Some (evs, w) → P evs w.
Proof.
  intros H0 Hstep acts. induction acts as [|a acts IH] using rev_ind; intros evs w Hr.
  - by simplify_eq/=.
  - apply run_snoc in Hr as (evs0 & w1 & ev & Hr & Hs & ->). eauto.
Qed.


(** ** Preservation of the invariant *)

(** Case analysis of a step: one goal per statement of the program. *)
Ltac open_go H w g :=
  let G := fresh "G" in let HG := fresh "HG" in
  destruct (gs w !! g) as [G|] eqn:HG; [|done];
  unfold resolveHost_step in H;
  destruct G as [gc gh pc gst ger gel gtm];
  destruct pc; simpl in H;
  unfold lock, unlock, load, store, send, fault, MustNewConstMetric in H;
  simpl in H; repeat case_match; simplify_eq.

Ltac open_step H :=
  match type of H with
  | step ?w ?a = _ =>
      let C := fresh "C" in let HC := fresh "HC" in
      destruct a as [d| |c|g|g ans|g]; simpl in H;
      [ case_decide; simplify_eq
      | simplify_eq
      | destruct (calls w !! c) as [C|] eqn:HC; [|done];
        unfold Collect_step in H;
        destruct C as [[|[|hst rst]|] wg]; simpl in H;
        repeat case_decide; simplify_eq
      | open_go H w g
      | open_go H w g
      | open_go H w g ]
  end.

Ltac use_insert p HG :=
  match goal with
  | |- context [tally p (<[?g := ?G']> ?l)] =>
      let Hn := fresh "Hn" in
      pose proof (tally_insert p l g _ G' HG) as Hn; simpl in Hn
  end.

Lemma step_static config w a ev w' :
  Inv config w → step w a = Ok ev w' →
  ∃ e0, NewDNSCollector config = (Some e0, None) ∧
      total (coll w') = total e0 ∧ totalError (coll w') = totalError e0 ∧
      latency (coll w') = latency e0 ∧ hosts (coll w') = hosts e0.
Proof.
  intros [(e0 & ? & ? & ? & ? & ?) _ _ _ _ _ _ _ _] Hs.
  exists e0. open_step Hs; simpl; done.
Qed.

Lemma step_mutex config w a ev w' :
  Inv config w → step w a = Ok ev w' →
  ∀ m, tally (in_cs m) (gs w') = if mutex m (coll w') then 1%nat else 0%nat.
Proof.
  intros [_ Hm _ _ _ _ _ _ _] Hs m. specialize (Hm m).
  open_step Hs; simpl; try done.
  all: try (use_insert (in_cs m) HG; destruct m; simpl in *;
            repeat match goal with Hx : _ = _ |- _ => rewrite Hx in * end; lia).
  - rewrite tally_snoc. destruct m; simpl in *; lia.
Qed.

Lemma tally_two {A} (p : A → bool) l i j x y :
  i ≠ j → l !! i = Some x → l !! j = Some y → p x = true → p y = true →
  (2 ≤ tally p l)%nat.
Proof.
  revert i j. induction l as [|z l IH]; intros [|i] [|j] Hij Hi Hj Hx Hy;
    simplify_eq/=; rewrite tally_cons.
  - rewrite Hx. pose proof (tally_lookup p l j y Hj Hy). lia.
  - rewrite Hy. pose proof (tally_lookup p l i x Hi Hx). lia.
  - assert (i ≠ j) by congruence. specialize (IH i j). destruct (p z); naive_solver lia.
Qed.

Lemma tally_none {A} (p : A → bool) l :
  (∀ i x, l !! i = Some x → p x = false) → tally p l = 0%nat.
Proof.
  induction l as [|z l IH]; intros H; [done|].
  rewrite tally_cons, (H 0%nat z eq_refl), IH; [done|].
  intros i x Hi. apply (H (S i) x Hi).
Qed.

Lemma get_insert t k v host :
  get (<[k:=v]> t) host = if decide (k = host) then v else get t host.
Proof.
  unfold get. case_decide; subst.
  - by rewrite lookup_insert_eq.
  - by rewrite lookup_insert_ne.
Qed.

Lemma lookup_snoc_Some {A} (l : list A) x i y :
  (l ++ [x]) !! i = Some y → l !! i = Some y ∨ (i = length l ∧ y = x).
Proof.
  intros H. destruct (decide (i < length l)%nat).
  - rewrite lookup_app_l in H by done. by left.
  - rewrite lookup_app_r in H by lia.
    destruct (i - length l)%nat as [|k] eqn:Hk; simplify_eq/=.
    right. split; [lia|done].
Qed.

Lemma step_tmp config w a ev w' :
  Inv config w → step w a = Ok ev w' →
  ∀ m g G, gs w' !! g = Some G → at_store m G = true →
    g_tmp G = get (table m (coll w')) (g_host G).
Proof.
  intros [_ Hm Ht _ _ _ _ _ _] Hs m g' G' HG' Hat.
  open_step Hs; simpl in *; eauto.
  all: try (apply lookup_snoc_Some in HG' as [?|[_ ->]]; [eauto | by destruct m]).
  all: destruct (decide (g = g')) as [->|Hne];
    [ rewrite list_lookup_insert_eq in HG' by (by eapply lookup_lt_Some);
      simplify_eq; destruct m; simplify_eq/=; eauto
    | rewrite list_lookup_insert_ne in HG' by done ].
  all: try (destruct m; simpl; by eapply Ht).
  all: destruct m; simpl; try (by eapply (Ht Total)); try (by eapply (Ht Errors)).
  all: exfalso.
  - assert (in_cs Errors G' = true) by (unfold in_cs, at_store in *; destruct (g_pc G'); done).
    pose proof (tally_two (in_cs Errors) _ _ _ _ _ Hne HG HG' eq_refl H).
    specialize (Hm Errors). destruct (mutex Errors (coll w)); lia.
  - assert (in_cs Total G' = true) by (unfold in_cs, at_store in *; destruct (g_pc G'); done).
    pose proof (tally_two (in_cs Total) _ _ _ _ _ Hne HG HG' eq_refl H).
    specialize (Hm Total). destruct (mutex Total (coll w)); lia.
Qed.

Lemma step_err config w a ev w' :
  Inv config w → step w a = Ok ev w' →
  ∀ g G, gs w' !! g = Some G → (2 ≤ index (g_pc G) ≤ 6)%nat → is_Some (g_err G).
Proof.
  intros [_ _ _ _ He _ _ _ _] Hs g' G' HG' Hix.
  open_step Hs; simpl in *; eauto.
  all: try (apply lookup_snoc_Some in HG' as [?|[_ ->]]; [eauto | simpl in Hix; lia]).
  all: destruct (decide (g = g')) as [->|Hne];
    [ rewrite list_lookup_insert_eq in HG' by (by eapply lookup_lt_Some);
      simplify_eq; simpl in *; try lia; try (eapply (He g' _ HG); simpl; lia); eauto
    | rewrite list_lookup_insert_ne in HG' by done; eauto ].
Qed.

Lemma step_call config w a ev w' :
  Inv config w → step w a = Ok ev w' →
  ∀ g G, gs w' !! g = Some G → (g_call G < length (calls w'))%nat.
Proof.
  intros [_ _ _ _ _ Hc _ _ _] Hs g' G' HG'.
  open_step Hs; simpl in *; rewrite ?length_insert, ?length_app; simpl; eauto.
  all: try (specialize (Hc _ _ HG'); lia).
  all: try (apply lookup_snoc_Some in HG' as [?|[_ ->]];
            [eauto | simpl; by eapply lookup_lt_Some]).
  all: destruct (decide (g = g')) as [->|Hne];
    [ rewrite list_lookup_insert_eq in HG' by (by eapply lookup_lt_Some);
      simplify_eq; simpl in *; apply (Hc _ _ HG)
    | rewrite list_lookup_insert_ne in HG' by done; eauto ].
Qed.

Lemma tally_insert_same {A} (p : A → bool) l i x y :
  l !! i = Some x → p x = p y → tally p (<[i:=y]> l) = tally p l.
Proof. intros Hi Hp. pose proof (tally_insert p l i x y Hi) as H. rewrite Hp in H. lia. Qed.

Lemma tally_insert_incr {A} (p : A → bool) l i x y :
  l !! i = Some x → p x = false → p y = true → tally p (<[i:=y]> l) = S (tally p l).
Proof.
  intros Hi Hx Hy. pose proof (tally_insert p l i x y Hi) as H.
  rewrite Hx, Hy in H. lia.
Qed.

Lemma tally_insert_decr {A} (p : A → bool) l i x y :
  l !! i = Some x → p x = true → p y = false → S (tally p (<[i:=y]> l)) = tally p l.
Proof.
  intros Hi Hx Hy. pose proof (tally_insert p l i x y Hi) as H.
  rewrite Hx, Hy in H. lia.
Qed.

Lemma wrap64_S n : wrap64 (wrap64 (Z.of_nat n) + 1) = wrap64 (Z.of_nat (S n)).
Proof. rewrite wrap64_succ. f_equal. lia. Qed.

Lemma step_count config w a ev w' :
  Inv config w → step w a = Ok ev w' →
  ∀ m host,
    get (table m (coll w')) host = wrap64 (Z.of_nat (tally (counted m host) (gs w'))).
Proof.
  intros [_ _ Ht Hn He _ _ _ _] Hs m host. specialize (Hn m host).
  open_step Hs; simpl in *; try exact Hn.
  all: try (rewrite tally_snoc; unfold counted; destruct m; simpl;
            rewrite ?andb_false_r, ?Nat.add_0_r; exact Hn).
  all: pose proof (He _ _ HG) as Herr; simpl in Herr.
  all: destruct m; simpl.
  all: try (rewrite (tally_insert_same _ _ _ _ _ HG)
              by (unfold counted; simpl; rewrite ?andb_false_r; done); exact Hn).
  - rewrite get_insert. simpl in Hn. pose proof (Ht Errors _ _ HG eq_refl) as Htmp.
    simpl in Htmp. destruct Herr as [s ->]; [lia|].
    case_decide as Hh; subst.
    + rewrite (tally_insert_incr _ _ _ _ _ HG)
        by (unfold counted; simpl; by rewrite ?bool_decide_eq_true_2).
      rewrite Hn. apply wrap64_S.
    + rewrite (tally_insert_same _ _ _ _ _ HG); [done|].
      unfold counted; simpl. by rewrite bool_decide_eq_false_2.
  - rewrite get_insert. simpl in Hn. pose proof (Ht Total _ _ HG eq_refl) as Htmp.
    simpl in Htmp.
    case_decide as Hh; subst.
    + rewrite (tally_insert_incr _ _ _ _ _ HG)
        by (unfold counted; simpl; by rewrite ?bool_decide_eq_true_2).
      rewrite Hn. apply wrap64_S.
    + rewrite (tally_insert_same _ _ _ _ _ HG); [done|].
      unfold counted; simpl. by rewrite bool_decide_eq_false_2.
Qed.

Lemma live_other_call config w c :
  Inv config w → (length (calls w) ≤ c)%nat → tally (live c) (gs w) = 0%nat.
Proof.
  intros HI Hc. apply tally_none. intros i G HG.
  pose proof (inv_call _ _ HI _ _ HG). unfold live.
  rewrite bool_decide_eq_false_2; [done|lia].
Qed.

Lemma step_wg config w a ev w' :
  Inv config w → step w a = Ok ev w' →
  ∀ c C, calls w' !! c = Some C →
    c_wg C = Z.of_nat (length (pending C) + tally (live c) (gs w')).
Proof.
  intros HI Hs c' C' HC'. pose proof (inv_wg _ _ HI) as Hw.
  pose proof (inv_static _ _ HI) as (e0 & Hnew & _ & _ & _ & Hh).
  open_step Hs; simpl in *; eauto.
  all: try (rewrite (tally_insert_same _ _ _ _ _ HG) by (unfold live; simpl; done); by eauto).
  - apply lookup_snoc_Some in HC' as [?|[-> ->]]; [eauto|]. simpl.
    by rewrite (live_other_call config).
  - destruct (decide (c = c')) as [->|];
      [rewrite list_lookup_insert_eq in HC' by (by eapply lookup_lt_Some)
      |rewrite list_lookup_insert_ne in HC' by done; eauto].
    simplify_eq/=. pose proof (Hw _ _ HC) as Hc. unfold pending in *. simpl in *. lia.
  - destruct (decide (c = c')) as [->|];
      [rewrite list_lookup_insert_eq in HC' by (by eapply lookup_lt_Some)
      |rewrite list_lookup_insert_ne in HC' by done; eauto].
    simplify_eq/=. pose proof (Hw _ _ HC) as Hc. unfold pending in *. simpl in *. lia.
  - rewrite tally_snoc. unfold live at 2. simpl.
    destruct (decide (c = c')) as [->|];
      [rewrite list_lookup_insert_eq in HC' by (by eapply lookup_lt_Some)
      |rewrite list_lookup_insert_ne in HC' by done].
    + simplify_eq/=. pose proof (Hw _ _ HC) as Hc. unfold pending in *.
      rewrite bool_decide_eq_true_2 by done. simpl in *. lia.
    + rewrite bool_decide_eq_false_2 by done. simpl. rewrite Nat.add_0_r. eauto.
  - match goal with H : calls w !! gc = Some ?D |- _ => rename H into HD; set (C := D) in * end.
    destruct (decide (gc = c')) as [->|];
      [rewrite list_lookup_insert_eq in HC' by (by eapply lookup_lt_Some)
      |rewrite list_lookup_insert_ne in HC' by done].
    + simplify_eq/=. pose proof (Hw _ _ HD) as Hc.
      pose proof (tally_insert_decr (live c') _ _ _ (at_pc LExit {| g_call := c'; g_host := gh;
        g_pc := LDone; g_start := gst; g_err := ger; g_elapsed := gel; g_tmp := gtm |}) HG) as Hd.
      unfold live in Hd at 1 2. simpl in Hd. rewrite bool_decide_eq_true_2 in Hd by done.
      specialize (Hd eq_refl eq_refl). unfold pending in *. simpl in *. lia.
    + rewrite (tally_insert_same _ _ _ _ _ HG); [eauto|].
      unfold live; simpl. by rewrite bool_decide_eq_false_2.
Qed.

Lemma step_ret config w a ev w' :
  Inv config w → step w a = Ok ev w' →
  ∀ c C, calls w' !! c = Some C → returned C = true → c_wg C = 0.
Proof.
  intros HI Hs c' C' HC' Hret. pose proof (inv_ret _ _ HI) as Hr.
  open_step Hs; simpl in *; eauto.
  - apply lookup_snoc_Some in HC' as [?|[-> ->]]; [eauto|done].
  - destruct (decide (c = c')) as [->|];
      [rewrite list_lookup_insert_eq in HC' by (by eapply lookup_lt_Some)
      |rewrite list_lookup_insert_ne in HC' by done; eauto].
    by simplify_eq/=.
  - destruct (decide (c = c')) as [->|];
      [rewrite list_lookup_insert_eq in HC' by (by eapply lookup_lt_Some)
      |rewrite list_lookup_insert_ne in HC' by done; eauto].
    by simplify_eq/=.
  - destruct (decide (c = c')) as [->|];
      [rewrite list_lookup_insert_eq in HC' by (by eapply lookup_lt_Some)
      |rewrite list_lookup_insert_ne in HC' by done; eauto].
    by simplify_eq/=.
  - match goal with H : calls w !! gc = Some _ |- _ => rename H into HD end.
    destruct (decide (gc = c')) as [->|];
      [rewrite list_lookup_insert_eq in HC' by (by eapply lookup_lt_Some)
      |rewrite list_lookup_insert_ne in HC' by done; eauto].
    simplify_eq/=. specialize (Hr _ _ HD Hret). lia.
Qed.

Lemma occurrences_nil host : occurrences host [] = 0%nat.
Proof. done. Qed.

Lemma occurrences_cons host x l :
  occurrences host (x :: l) = ((if bool_decide (x = host) then 1 else 0) + occurrences host l)%nat.
Proof. done. Qed.

Lemma step_hosts config w a ev w' :
  Inv config w → step w a = Ok ev w' →
  ∀ host,
    (tally (hosted host) (gs w') + sum_list_with (λ C, occurrences host (pending C)) (calls w')
     = occurrences host (Hosts config) * tally started (calls w'))%nat.
Proof.
  intros HI Hs host. pose proof (inv_hosts _ _ HI host) as Hh.
  pose proof (inv_static _ _ HI) as (e0 & Hnew & _ & _ & _ & Hhs).
  open_step Hs; simpl in *; eauto.
  all: try (rewrite (tally_insert_same _ _ _ _ _ HG) by done).
  all: try done.
  - rewrite sum_list_with_app, tally_snoc. simpl. lia.
  - pose proof (sum_list_with_insert (λ C, occurrences host (pending C)) _ _ _
        {| c_pc := CRange (hosts (coll w));
           c_wg := wg + Z.of_nat (length (hosts (coll w))) |} HC) as H1.
    pose proof (tally_insert started _ _ _
        {| c_pc := CRange (hosts (coll w));
           c_wg := wg + Z.of_nat (length (hosts (coll w))) |} HC) as H2.
    unfold NewDNSCollector in Hnew. simplify_eq.
    simpl in *. rewrite Hhs in *. cbv beta iota delta [pending c_pc] in *.
    rewrite ?occurrences_nil in H1. nia.
  - pose proof (sum_list_with_insert (λ C, occurrences host (pending C)) _ _ _
        {| c_pc := CRet; c_wg := 0 |} HC) as H1.
    pose proof (tally_insert started _ _ _ {| c_pc := CRet; c_wg := 0 |} HC) as H2.
    simpl in *. cbv beta iota delta [pending c_pc] in *.
    rewrite ?occurrences_nil in H1. lia.
  - pose proof (sum_list_with_insert (λ C, occurrences host (pending C)) _ _ _
        {| c_pc := CRange rst; c_wg := wg |} HC) as H1.
    pose proof (tally_insert started _ _ _ {| c_pc := CRange rst; c_wg := wg |} HC) as H2.
    rewrite tally_snoc. simpl in *. cbv beta iota delta [pending c_pc] in *.
    rewrite ?occurrences_cons in H1. unfold hosted at 2. simpl. lia.
  - match goal with H : calls w !! gc = Some _ |- _ => rename H into HD end.
    destruct c as [cpc cwg].
    pose proof (sum_list_with_insert (λ C, occurrences host (pending C)) _ _ _
        {| c_pc := cpc; c_wg := cwg - 1 |} HD) as H1.
    pose proof (tally_insert started _ _ _ {| c_pc := cpc; c_wg := cwg - 1 |} HD) as H2.
    simpl in *. cbv beta iota delta [pending started c_pc] in *. lia.
Qed.

Lemma step_Inv config w a ev w' :
  Inv config w → step w a = Ok ev w' → Inv config w'.
Proof.
  intros HI Hs. split.
  - by eapply step_static.
  - by eapply step_mutex.
  - by eapply step_tmp.
  - by eapply step_count.
  - by eapply step_err.
  - by eapply step_call.
  - by eapply step_wg.
  - by eapply step_ret.
  - by eapply step_hosts.
Qed.

Lemma boot_Inv config w0 : boot config = Some w0 → Inv config w0.
Proof.
  unfold boot. simpl. intros ?; simplify_eq. split; simpl; try done.
  all: try (by intros []).
  eexists. by split.
Qed.

Lemma reachable_Inv config evs w : reachable config evs w → Inv config w.
Proof.
  intros (w0 & acts & Hb & Hr). revert acts evs w Hr.
  apply (run_ind (λ _ w, Inv config w)).
  - by apply boot_Inv.
  - intros evs w a ev w' HI Hs. by eapply step_Inv.
Qed.

Lemma outcome_reachable config acts evs w :
  outcome config acts = Some (evs, w) → reachable config evs w.
Proof.
  unfold outcome. destruct (boot config) as [w0|] eqn:Hb; [|done].
  intros Hr. by exists w0, acts.
Qed.

Lemma reachable_run config evs w acts evs' w' :
  reachable config evs w → run w acts = Some (evs', w') →
  reachable config (evs ++ evs') w'.
Proof.
  intros (w0 & acts0 & Hb & Hr) Hs. exists w0, (acts0 ++ acts). split; [done|].
  by rewrite run_app, Hr, Hs.
Qed.

(** ** Counts after completed cycles *)

Lemma tally_le_length {A} (p : A → bool) l : (tally p l ≤ length l)%nat.
Proof.
  induction l as [|x l IH]; [done|]. rewrite tally_cons. simpl. destruct (p x); lia.
Qed.

Lemma quiescent_returned w c C : quiescent w → calls w !! c = Some C → returned C = true.
Proof.
  unfold quiescent. rewrite forallb_forall. intros H HC. apply H.
  apply list_elem_of_In. by eapply list_elem_of_lookup_2.
Qed.

Lemma quiescent_exited config w g G :
  Inv config w → quiescent w → gs w !! g = Some G → g_pc G = LExit.
Proof.
  intros HI Hq HG. pose proof (inv_call _ _ HI _ _ HG) as Hc.
  apply lookup_lt_is_Some in Hc as [C HC].
  pose proof (quiescent_returned _ _ _ Hq HC) as Hr.
  pose proof (inv_wg _ _ HI _ _ HC) as Hw. rewrite (inv_ret _ _ HI _ _ HC Hr) in Hw.
  assert (tally (live (g_call G)) (gs w) = 0%nat) as H0 by lia.
  pose proof (tally_zero _ _ _ _ H0 HG) as Hl. unfold live in Hl.
  rewrite bool_decide_eq_true_2 in Hl by done. simpl in Hl.
  by apply negb_false_iff, bool_decide_eq_true in Hl.
Qed.

Lemma quiescent_calls host l :
  forallb returned l = true →
  tally started l = length l ∧
  sum_list_with (λ C, occurrences host (pending C)) l = 0%nat.
Proof.
  induction l as [|C l IH]; [done|]. simpl. intros [HC Hl]%andb_true_iff.
  rewrite tally_cons. destruct (IH Hl) as [-> ->].
  destruct C as [[]?]; simplify_eq/=. done.
Qed.

Lemma quiescent_attempts config evs w host :
  reachable config evs w → quiescent w →
  get (totalCount (coll w)) host
  = wrap64 (Z.of_nat (length (calls w) * occurrences host (Hosts config))).
Proof.
  intros Hr Hq. pose proof (reachable_Inv _ _ _ Hr) as HI.
  pose proof (inv_count _ _ HI Total host) as Hc. simpl in Hc. rewrite Hc.
  do 2 f_equal. rewrite (tally_ext _ (hosted host)).
  - pose proof (inv_hosts _ _ HI host) as Hh.
    destruct (quiescent_calls host _ Hq) as [Hs Hp]. rewrite Hs, Hp in Hh. lia.
  - intros g G HG. unfold counted, hosted, stored.
    rewrite (quiescent_exited _ _ _ _ HI Hq HG). simpl. by rewrite andb_true_r.
Qed.

(** C1, as amended: once the N calls of [Collect] made so far have all
    returned, the attempt count stored for a host is N times the number of
    times the registry lists that host, as an int; so it is exactly N for
    a host listed once, while N is below 2^63. *)
Theorem attempts_after_cycles config evs w host :
  reachable config evs w → quiescent w →
  get (totalCount (coll w)) host
  = wrap64 (Z.of_nat (length (calls w) * occurrences host (Hosts config))) ∧
  (occurrences host (Hosts config) = 1%nat → Z.of_nat (length (calls w)) < 2 ^ 63 →
   get (totalCount (coll w)) host = Z.of_nat (length (calls w))).
Proof.
  intros Hr Hq. pose proof (quiescent_attempts _ _ _ host Hr Hq) as H.
  split; [done|]. intros Ho Hn. rewrite H, Ho, Nat.mul_1_r.
  apply wrap64_small. lia.
Qed.

Lemma attempts_after_cycles_witness :
  ∃ evs w, outcome failing_config failed_schedule = Some (evs, w) ∧
    get (totalCount (coll w)) "bad.invalid"
    = wrap64 (Z.of_nat (length (calls w)
                        * occurrences "bad.invalid" (Hosts failing_config))) ∧
    (occurrences "bad.invalid" (Hosts failing_config) = 1%nat →
     Z.of_nat (length (calls w)) < 2 ^ 63 →
     get (totalCount (coll w)) "bad.invalid" = Z.of_nat (length (calls w))).
Proof.
  eexists _, _. split; [vm_compute; reflexivity|].
  eapply (attempts_after_cycles failing_config).
  - apply outcome_reachable with failed_schedule. vm_compute. reflexivity.
  - reflexivity.
Defined.

(** C1 as stated fails where a host is listed twice: after one cycle its
    attempt count is 2. *)
Lemma attempts_after_cycles_counterexample :
  ¬ (∀ config evs w host,
       reachable config evs w → quiescent w → host ∈ Hosts config →
       get (totalCount (coll w)) host = Z.of_nat (length (calls w))).
Proof.
  intros H.
  destruct (outcome twice_config twice_schedule) as [[evs w]|] eqn:Hrun;
    [|by vm_compute in Hrun].
  specialize (H twice_config evs w "a" (outcome_reachable _ _ _ _ Hrun)).
  vm_compute in Hrun. simplify_eq.
  specialize (H eq_refl). 
  assert ("a" ∈ Hosts twice_config) as Hin by (simpl; set_solver).
  specialize (H Hin). by vm_compute in H.
Qed.

(** The increments of a map exclude each other. *)
Lemma writes_exclusive config evs w m g G g' G' :
  reachable config evs w →
  gs w !! g = Some G → in_cs m G = true →
  gs w !! g' = Some G' → in_cs m G' = true → g = g'.
Proof.
  intros Hr HG Hc HG' Hc'. destruct (decide (g = g')) as [|Hne]; [done|].
  pose proof (inv_mutex _ _ (reachable_Inv _ _ _ Hr) m) as Hm.
  pose proof (tally_two (in_cs m) _ _ _ _ _ Hne HG HG' Hc Hc').
  destruct (mutex m (coll w)); lia.
Qed.

(** ** Errors against attempts *)

Lemma tally_split {A} (p q r : A → bool) l :
  (∀ x, p x = true → q x = true ∨ r x = true) →
  (tally p l ≤ tally q l + tally r l)%nat.
Proof.
  intros H. induction l as [|x l IH]; [done|]. rewrite !tally_cons.
  specialize (H x). destruct (p x), (q x), (r x); naive_solver lia.
Qed.

(** C3, as amended: while fewer than 2^63 probes have been launched, the
    error count of a host is at most its attempt count plus the number of
    its probes that have incremented the error count and not yet the
    attempt count; with no such probe in flight it is at most the attempt
    count. *)
Theorem errors_le_attempts config evs w host :
  reachable config evs w → Z.of_nat (length (gs w)) < 2 ^ 63 →
  get (totalErrorCount (coll w)) host
  ≤ get (totalCount (coll w)) host + Z.of_nat (tally (ahead host) (gs w)).
Proof.
  intros Hr Hlen. pose proof (reachable_Inv _ _ _ Hr) as HI.
  pose proof (inv_count _ _ HI Total host) as Ht.
  pose proof (inv_count _ _ HI Errors host) as He. simpl in Ht, He.
  pose proof (tally_le_length (counted Total host) (gs w)).
  pose proof (tally_le_length (counted Errors host) (gs w)).
  rewrite wrap64_small in Ht, He by lia. rewrite Ht, He.
  assert (tally (counted Errors host) (gs w)
          ≤ tally (counted Total host) (gs w) + tally (ahead host) (gs w))%nat; [|lia].
  apply tally_split. intros G HG. unfold ahead. rewrite HG.
  destruct (counted Total host G); auto.
Qed.

Lemma errors_le_attempts_witness :
  ∃ evs w, outcome failing_config failing_schedule = Some (evs, w) ∧
    get (totalErrorCount (coll w)) "bad.invalid"
    ≤ get (totalCount (coll w)) "bad.invalid"
      + Z.of_nat (tally (ahead "bad.invalid") (gs w)).
Proof.
  eexists _, _. split; [vm_compute; reflexivity|].
  eapply (errors_le_attempts failing_config).
  - apply outcome_reachable with failing_schedule. vm_compute. reflexivity.
  - simpl. lia.
Defined.

(** C3 as stated fails inside a failing probe: line 93 has incremented the
    error count, line 102 has not yet incremented the attempt count. *)
Lemma errors_le_attempts_counterexample :
  ¬ (∀ config evs w host,
       reachable config evs w →
       get (totalErrorCount (coll w)) host ≤ get (totalCount (coll w)) host).
Proof.
  intros H.
  destruct (outcome failing_config failing_schedule) as [[evs w]|] eqn:Hrun;
    [|by vm_compute in Hrun].
  specialize (H failing_config evs w "bad.invalid" (outcome_reachable _ _ _ _ Hrun)).
  vm_compute in Hrun. simplify_eq. by vm_compute in H.
Qed.

(** ** The history of a goroutine *)

Lemma ops_of_snoc g evs ev :
  ops_of g (evs ++ [ev]) =
  ops_of g evs ++ match ev with
                  | EvGo g' op => if decide (g' = g) then [op] else []
                  | _ => []
                  end.
Proof.
  unfold ops_of. rewrite omap_app. f_equal. simpl.
  destruct ev; try done. by case_decide.
Qed.

Lemma history_static e e' G ops :
  total e' = total e → totalError e' = totalError e → latency e' = latency e →
  history e G ops → history e' G ops.
Proof.
  intros H1 H2 H3 (v1 & t2 & v2 & a & b & H). exists v1, t2, v2, a, b.
  unfold script in *. by rewrite H1, H2, H3.
Qed.

Lemma step_histories config evs w a ev w' :
  Inv config w → histories evs w → step w a = Ok ev w' → histories (evs ++ [ev]) w'.
Proof.
  intros HI [Hh Hf] Hs. split.
  - intros g' G' HG'.
    open_step Hs; rewrite ops_of_snoc; simpl in *; rewrite ?app_nil_r; eauto.
    { apply lookup_snoc_Some in HG' as [?|[-> ->]]; [eauto|].
      rewrite Hf by done. by exists 0, 0, 0, 0, 0. }
    all: pose proof (inv_err _ _ HI _ _ HG) as Herr; simpl in Herr.
    all: destruct (decide (g = g')) as [->|Hne];
      [ rewrite list_lookup_insert_eq in HG' by (by eapply lookup_lt_Some)
      | rewrite list_lookup_insert_ne in HG' by done; rewrite app_nil_r;
        by apply (history_static (coll w)), (Hh _ _ HG') ].
    all: simplify_eq; destruct (Hh _ _ HG) as (v1 & t2 & v2 & a & b & Hops & Hel & Ht1 & Ht2).
    all: simpl in *.
    all: try (destruct Herr as [? ->]; [lia|]).
    all: try destruct ger as [?|].
    all: try (specialize (Ht1 eq_refl); subst gtm).
    all: try (specialize (Ht2 eq_refl); subst gtm).
    all: try (assert (gel = Since t2 gst) as -> by (apply Hel; lia)).
    all: rewrite Hops; unfold history, progress, script; simpl.
    all: eexists _, _, _, _, _; (split; [reflexivity|]).
    all: try (split; [|split]; intros; try done; try lia; eauto).
  - intros g' Hg'.
    open_step Hs; rewrite ops_of_snoc; simpl in *;
      rewrite ?length_insert, ?length_app in Hg'; simpl in *;
      rewrite ?app_nil_r; try (apply Hf; lia).
    all: apply lookup_lt_Some in HG.
    all: rewrite decide_False by lia; rewrite app_nil_r; apply Hf; lia.
  Unshelve. all: exact 0.
Qed.

Lemma reachable_histories config evs w : reachable config evs w → histories evs w.
Proof.
  intros (w0 & acts & Hb & Hr).
  assert (Inv config w ∧ histories evs w) as [_ ?]; [|done].
  revert acts evs w Hr. apply (run_ind (λ evs w, Inv config w ∧ histories evs w)).
  - split; [by apply boot_Inv|]. unfold boot in Hb. simpl in Hb. simplify_eq.
    split; [by intros [] |done].
  - intros evs w a ev w' [HI Hh] Hs. split; [by eapply step_Inv|by eapply step_histories].
Qed.

(** The statements a goroutine has run are an initial part of [script];
    all of it once the goroutine has exited. *)
Lemma probe_history config evs w g G :
  reachable config evs w → gs w !! g = Some G → history (coll w) G (ops_of g evs).
Proof. intros Hr HG. by apply (reachable_histories config). Qed.

Lemma probe_script config evs w g G :
  reachable config evs w → gs w !! g = Some G → g_pc G = LExit →
  ∃ v1 t2 v2 a b,
    ops_of g evs = script (coll w) (g_host G) (g_start G) (g_err G) v1 t2 v2 a b
    ∧ g_elapsed G = Since t2 (g_start G).
Proof.
  intros Hr HG Hpc.
  destruct (probe_history _ _ _ _ _ Hr HG) as (v1 & t2 & v2 & a & b & Hops & Hel & _).
  exists v1, t2, v2, a, b. rewrite Hpc in Hel. split; [|apply Hel; simpl; lia].
  rewrite Hops. unfold progress. rewrite Hpc. by destruct (g_err G).
Qed.


(** ** The counts the statements observe *)






(** ** What the events record *)

Lemma boot_world config w0 :
  boot config = Some w0 →
  gs w0 = [] ∧ calls w0 = [] ∧ ch w0 = [] ∧ logs w0 = [] ∧ clock w0 = 0 ∧
  totalCount (coll w0) = ∅ ∧ totalErrorCount (coll w0) = ∅.
Proof. unfold boot. simpl. intros ?; by simplify_eq. Qed.

(** What a step appends to the channel. *)
Lemma step_ch w a ev w' :
  step w a = Ok ev w' →
  ch w' = ch w ++ match ev with EvGo _ (OpSend m) => [m] | _ => [] end.
Proof. intros Hs. open_step Hs; simpl; by rewrite ?app_nil_r. Qed.

Lemma omap_sublist {A B} (f h : A → option B) (l : list A) :
  (∀ x y, f x = Some y → h x = Some y) → omap f l `sublist_of` omap h l.
Proof.
  intros Hfh. induction l as [|x l IH]; simpl; [constructor|].
  destruct (f x) as [y|] eqn:Hf.
  - rewrite (Hfh _ _ Hf). by constructor.
  - destruct (h x); [by constructor|done].
Qed.

Lemma omap_omap {A B C} (f : A → option B) (h : B → option C) (l : list A) :
  omap h (omap f l) = omap (λ x, f x ≫= h) l.
Proof.
  induction l as [|x l IH]; [done|]. simpl.
  destruct (f x) as [y|]; simpl; [|done].
  destruct (h y); [f_equal|]; exact IH.
Qed.

Lemma reachable_sent config evs w : reachable config evs w → ch w = sent evs.
Proof.
  intros (w0 & acts & Hb & Hr). revert acts evs w Hr.
  apply (run_ind (λ evs w, ch w = sent evs)).
  - by apply boot_world in Hb as (_ & _ & -> & _).
  - intros evs w a ev w' Hc Hs. rewrite (step_ch _ _ _ _ Hs), Hc.
    unfold sent. rewrite omap_app. f_equal. by destruct ev as [| | | | |g []].
Qed.

(** The samples a goroutine has sent are on the channel, in the order it
    sent them. *)
Lemma sends_sublist config evs w g :
  reachable config evs w → sends (ops_of g evs) `sublist_of` ch w.
Proof.
  intros Hr. rewrite (reachable_sent _ _ _ Hr).
  unfold sends, sent, ops_of. rewrite omap_omap.
  apply omap_sublist. intros [| | | | |g' []] y; simpl; try done;
    case_decide; simpl; done.
Qed.








(** ** One probe *)

Lemma script_tally e host t1 err v1 t2 v2 a b :
  let ops := script e host t1 err v1 t2 v2 a b in
  tally (is_store Total) ops = 1%nat ∧
  tally (is_store Errors) ops = (if err is Some _ then 1 else 0)%nat ∧
  tally is_log ops = (if err is Some _ then 1 else 0)%nat ∧
  sends ops = [mkMetric (total e) CounterValue (FromInt a) [host];
               mkMetric (totalError e) CounterValue (FromInt b) [host];
               mkMetric (latency e) GaugeValue (Seconds (Since t2 t1)) [host]] ∧
  (∀ m key v, OpStore m key v ∈ ops → key = host).
Proof.
  destruct err; simpl; repeat split; try done.
  all: intros m key v Hin; unfold script in Hin; simpl in Hin.
  all: repeat (apply elem_of_cons in Hin as [Hin|Hin]; [by simplify_eq|]).
  all: by apply elem_of_nil in Hin.
Qed.



(** ** Order within a probe *)

Lemma precedes_take p q n ops : precedes p q ops → precedes p q (take n ops).
Proof.
  intros H i j x y [Hi _]%lookup_take_Some [Hj _]%lookup_take_Some. by apply H.
Qed.

Lemma script_order e host t1 err v1 t2 v2 a b :
  let ops := script e host t1 err v1 t2 v2 a b in
  precedes (is_store Errors) (is_store Total) ops ∧
  precedes (is_store Errors) is_send ops ∧
  precedes (is_store Total) is_send ops.
Proof.
  destruct err; simpl; repeat split; intros i j x y Hi Hj Hx Hy.
  all: unfold script in *; simpl in *.
  all: repeat (destruct i as [|i]; simplify_eq/=; try discriminate).
  all: repeat (destruct j as [|j]; simplify_eq/=; try discriminate; try lia).
Qed.

(** C4, as amended: within a probe the increment of the error count (when
    the lookup fails) comes before the increment of the attempt count, and
    both come before the reads of lines 105 and 106 that the samples
    carry. *)
Theorem probe_order config evs w g :
  reachable config evs w →
  precedes (is_store Errors) (is_store Total) (ops_of g evs) ∧
  precedes (is_store Errors) is_send (ops_of g evs) ∧
  precedes (is_store Total) is_send (ops_of g evs).
Proof.
  intros Hr. destruct (reachable_histories _ _ _ Hr) as [Hh Hf].
  destruct (gs w !! g) as [G|] eqn:HG.
  - destruct (Hh _ _ HG) as (v1 & t2 & v2 & a & b & -> & _).
    destruct (script_order (coll w) (g_host G) (g_start G) (g_err G) v1 t2 v2 a b)
      as (H1 & H2 & H3).
    repeat split; by apply precedes_take.
  - rewrite Hf by (by apply lookup_ge_None).
    repeat split; by intros [].
Qed.

Lemma probe_order_witness :
  ∃ evs w, outcome failing_config failed_schedule = Some (evs, w) ∧
    precedes (is_store Errors) (is_store Total) (ops_of 0 evs) ∧
    precedes (is_store Errors) is_send (ops_of 0 evs) ∧
    precedes (is_store Total) is_send (ops_of 0 evs).
Proof.
  eexists _, _. split; [vm_compute; reflexivity|].
  eapply (probe_order failing_config).
  apply outcome_reachable with failed_schedule. vm_compute. reflexivity.
Defined.

(** C4 as stated fails in a failing probe: the store of line 93 is its
    fifth statement, the store of line 102 its eleventh. *)
Lemma probe_order_counterexample :
  ¬ (∀ config evs w g,
       reachable config evs w →
       precedes (is_store Total) (is_store Errors) (ops_of g evs)).
Proof.
  intros H.
  destruct (outcome failing_config failed_schedule) as [[evs w]|] eqn:Hrun;
    [|by vm_compute in Hrun].
  specialize (H failing_config evs w 0%nat (outcome_reachable _ _ _ _ Hrun)).
  vm_compute in Hrun. simplify_eq.
  specialize (H 10%nat 4%nat _ _ eq_refl eq_refl eq_refl eq_refl). lia.
Qed.

(** ** Construction *)

(** C10: [NewDNSCollector] returns a collector and a nil error, whatever
    the configuration; both count maps are empty. *)
Theorem NewDNSCollector_total config :
  ∃ e, NewDNSCollector config = (Some e, None) ∧
       totalCount e = ∅ ∧ totalErrorCount e = ∅ ∧ hosts e = Hosts config.
Proof. by eexists. Qed.

(** ** Names *)

Lemma step_samples config w a ev w' :
  Inv config w → (∀ m, m ∈ ch w → sample_ok (coll w) m) →
  step w a = Ok ev w' → ∀ m, m ∈ ch w' → sample_ok (coll w') m.
Proof.
  intros HI Hc Hs m Hm.
  destruct (inv_static _ _ HI) as (e0 & Hnew & H1 & H2 & H3 & _).
  unfold NewDNSCollector in Hnew. simplify_eq. simpl in *.
  open_step Hs; simpl in *; try (by apply Hc).
  all: apply elem_of_app in Hm as [Hm|Hm]; [by apply Hc|].
  all: apply list_elem_of_singleton in Hm as ->.
  all: split; simpl; [|done]; auto.
Qed.

Lemma reachable_samples config evs w m :
  reachable config evs w → m ∈ ch w → sample_ok (coll w) m.
Proof.
  intros (w0 & acts & Hb & Hr). revert m.
  assert (Inv config w ∧ ∀ m, m ∈ ch w → sample_ok (coll w) m) as [_ ?]; [|done].
  revert acts evs w Hr.
  apply (run_ind (λ evs w, Inv config w ∧ ∀ m, m ∈ ch w → sample_ok (coll w) m)).
  - split; [by apply boot_Inv|]. unfold boot in Hb. simpl in Hb. simplify_eq.
    simpl. by intros m ?%elem_of_nil.
  - intros evs w a ev w' [HI Hc] Hs. split; [by eapply step_Inv|by eapply step_samples].
Qed.

Lemma Describe_names config e :
  NewDNSCollector config = (Some e, None) →
  fqName <$> Describe e [] = ["dns_exporter_resolution_total";
                              "dns_exporter_resolution_error_total";
                              "dns_exporter_resolution_seconds"] ∧
  variableLabels <$> Describe e [] = [["host"]; ["host"]; ["host"]].
Proof. unfold NewDNSCollector. intros ?; simplify_eq. by vm_compute. Qed.

(** C5, as amended: the three series are named exactly
    dns_exporter_resolution_total, dns_exporter_resolution_error_total
    and dns_exporter_resolution_seconds (the namespace is part of the
    name), each declared with the single label host.  Every sample on the
    channel is of one of the three, with one label value; and a probe
    that has run to its end has put there, labelled with its host, its
    attempt count under the first name, its error count under the second
    and its elapsed time under the third. *)
Theorem metric_names config evs w :
  reachable config evs w →
  fqName (total (coll w)) = "dns_exporter_resolution_total" ∧
  fqName (totalError (coll w)) = "dns_exporter_resolution_error_total" ∧
  fqName (latency (coll w)) = "dns_exporter_resolution_seconds" ∧
  (∀ d, d ∈ Describe (coll w) [] → variableLabels d = ["host"]) ∧
  (∀ m, m ∈ ch w →
     sample_ok (coll w) m ∧
     fqName (desc m) ∈ ["dns_exporter_resolution_total";
                        "dns_exporter_resolution_error_total";
                        "dns_exporter_resolution_seconds"] ∧
     variableLabels (desc m) = ["host"] ∧
     length (labelValues m) = 1%nat) ∧
  (∀ g G, gs w !! g = Some G → g_pc G = LExit →
     ∃ a b d,
       [mkMetric (total (coll w)) CounterValue (FromInt a) [g_host G];
        mkMetric (totalError (coll w)) CounterValue (FromInt b) [g_host G];
        mkMetric (latency (coll w)) GaugeValue (Seconds d) [g_host G]]
       `sublist_of` ch w).
Proof.
  intros Hr.
  destruct (inv_static _ _ (reachable_Inv _ _ _ Hr)) as (e0 & Hnew & H1 & H2 & H3 & _).
  unfold NewDNSCollector in Hnew. simplify_eq. simpl in *.
  do 3 (split; [by rewrite ?H1, ?H2, ?H3|]). split; [|split].
  - intros d Hd. unfold Describe in Hd. simpl in Hd. rewrite H1, H2, H3 in Hd.
    repeat (apply elem_of_cons in Hd as [->|Hd]; [done|]).
    by apply elem_of_nil in Hd.
  - intros m Hm. pose proof (reachable_samples _ _ _ _ Hr Hm) as Hok.
    split; [done|]. destruct Hok as [Hd Hl].
    rewrite H1, H2, H3 in Hd.
    destruct Hd as [[-> _]|[[-> _]|[-> _]]]; (split; [|done]); vm_compute; set_solver.
  - intros g G HG Hpc.
    destruct (probe_script _ _ _ _ _ Hr HG Hpc) as (v1 & t2 & v2 & a & b & Hops & _).
    destruct (script_tally (coll w) (g_host G) (g_start G) (g_err G) v1 t2 v2 a b)
      as (_ & _ & _ & Hs & _).
    exists a, b, (Since t2 (g_start G)).
    rewrite <- Hs, <- Hops. by apply (sends_sublist config).
Qed.

Lemma metric_names_witness :
  ∃ evs w, outcome failing_config failed_schedule = Some (evs, w) ∧
    fqName <$> (desc <$> ch w) = ["dns_exporter_resolution_total";
                                  "dns_exporter_resolution_error_total";
                                  "dns_exporter_resolution_seconds"] ∧
    fqName (total (coll w)) = "dns_exporter_resolution_total" ∧
    fqName (totalError (coll w)) = "dns_exporter_resolution_error_total" ∧
    fqName (latency (coll w)) = "dns_exporter_resolution_seconds" ∧
    (∀ d, d ∈ Describe (coll w) [] → variableLabels d = ["host"]) ∧
    (∀ m, m ∈ ch w →
       sample_ok (coll w) m ∧
       fqName (desc m) ∈ ["dns_exporter_resolution_total";
                          "dns_exporter_resolution_error_total";
                          "dns_exporter_resolution_seconds"] ∧
       variableLabels (desc m) = ["host"] ∧
       length (labelValues m) = 1%nat) ∧
    (∀ g G, gs w !! g = Some G → g_pc G = LExit →
       ∃ a b d,
         [mkMetric (total (coll w)) CounterValue (FromInt a) [g_host G];
          mkMetric (totalError (coll w)) CounterValue (FromInt b) [g_host G];
          mkMetric (latency (coll w)) GaugeValue (Seconds d) [g_host G]]
         `sublist_of` ch w).
Proof.
  eexists _, _. split; [vm_compute; reflexivity|]. split; [reflexivity|].
  eapply (metric_names failing_config).
  apply outcome_reachable with failed_schedule. vm_compute. reflexivity.
Defined.

(** C5 as stated fails: no sample is named resolution_total,
    resolution_error_total or resolution_seconds. *)
Lemma metric_names_counterexample :
  ¬ (∀ config evs w m,
       reachable config evs w → m ∈ ch w →
       fqName (desc m) ∈ ["resolution_total"; "resolution_error_total";
                          "resolution_seconds"]).
Proof.
  intros H.
  destruct (outcome failing_config failed_schedule) as [[evs w]|] eqn:Hrun;
    [|by vm_compute in Hrun].
  pose proof (H failing_config evs w) as H'.
  specialize (fun m => H' m (outcome_reachable _ _ _ _ Hrun)).
  vm_compute in Hrun. simplify_eq. simpl in H'.
  specialize (H' _ (list_elem_of_here _ _)). simpl in H'.
  vm_compute in H'. 
  repeat (apply elem_of_cons in H' as [H'|H']; [discriminate|]).
  by apply elem_of_nil in H'.
Qed.

(** ** The empty registry *)

Lemma sum_list_with_lookup {A} (f : A → nat) l i x :
  l !! i = Some x → (f x ≤ sum_list_with f l)%nat.
Proof.
  revert i. induction l as [|y l IH]; intros [|i] Hi; simplify_eq/=; [lia|].
  specialize (IH _ Hi). lia.
Qed.

Lemma empty_pending w c C :
  Inv (mkConfig []) w → calls w !! c = Some C → pending C = [].
Proof.
  intros HI HC. destruct (pending C) as [|host rest] eqn:Hp; [done|].
  pose proof (inv_hosts _ _ HI host) as Hh. simpl in Hh.
  pose proof (sum_list_with_lookup (λ C, occurrences host (pending C)) _ _ _ HC) as Hs.
  simpl in Hs. rewrite Hp, occurrences_cons, bool_decide_eq_true_2 in Hs by done.
  rewrite ?occurrences_nil in Hh. lia.
Qed.

Lemma no_go_snoc evs ev :
  (∀ g op, EvGo g op ∉ evs) → (∀ g op, ev ≠ EvGo g op) →
  ∀ g op, EvGo g op ∉ evs ++ [ev].
Proof.
  intros H1 H2 g op [?|?%list_elem_of_singleton]%elem_of_app; [by eapply H1|].
  by eapply H2.
Qed.

Lemma empty_idle evs w :
  reachable (mkConfig []) evs w →
  gs w = [] ∧ totalCount (coll w) = ∅ ∧ totalErrorCount (coll w) = ∅ ∧
  ch w = [] ∧ logs w = [] ∧ ∀ g op, EvGo g op ∉ evs.
Proof.
  intros (w0 & acts & Hb & Hr).
  assert (Inv (mkConfig []) w ∧
          (gs w = [] ∧ totalCount (coll w) = ∅ ∧ totalErrorCount (coll w) = ∅ ∧
           ch w = [] ∧ logs w = [] ∧ ∀ g op, EvGo g op ∉ evs)) as [_ ?]; [|done].
  revert acts evs w Hr.
  apply (run_ind (λ evs w, Inv (mkConfig []) w ∧
          (gs w = [] ∧ totalCount (coll w) = ∅ ∧ totalErrorCount (coll w) = ∅ ∧
           ch w = [] ∧ logs w = [] ∧ ∀ g op, EvGo g op ∉ evs))).
  - split; [by apply boot_Inv|]. unfold boot in Hb. simpl in Hb. simplify_eq. simpl.
    repeat split; try done. intros g op. apply not_elem_of_nil.
  - intros evs w a ev w' [HI (Hg & Ht & He & Hc & Hl & Hev)] Hs.
    split; [by eapply step_Inv|].
    destruct a as [d| |c|g|g ans|g]; simpl in Hs.
    + case_decide; simplify_eq/=. repeat split; try done. by apply no_go_snoc.
    + simplify_eq/=. repeat split; try done. by apply no_go_snoc.
    + destruct (calls w !! c) as [C|] eqn:HC; [|done].
      pose proof (empty_pending _ _ _ HI HC) as Hp.
      unfold Collect_step in Hs. unfold pending in Hp.
      destruct C as [[|rest|] wg]; simpl in *; subst;
        repeat case_decide; simplify_eq/=; repeat split; try done.
      all: by apply no_go_snoc.
    + by rewrite Hg in Hs.
    + by rewrite Hg in Hs.
    + by rewrite Hg in Hs.
Qed.

(** C9: with an empty registry no goroutine is ever launched, no count is
    ever written, no sample is ever sent and nothing is logged; and a call
    of [Collect] returns after [wg.Add(0)] and [wg.Wait()]. *)
Theorem empty_registry evs w :
  reachable (mkConfig []) evs w →
  (gs w = [] ∧ totalCount (coll w) = ∅ ∧ totalErrorCount (coll w) = ∅ ∧
   ch w = [] ∧ logs w = [] ∧ ∀ g op, EvGo g op ∉ evs) ∧
  let c := length (calls w) in
  ∃ w', run w [Scrape; CallStep c; CallStep c]
        = Some ([EvScrape c; EvAdd c 0; EvWait c], w') ∧
    calls w' = calls w ++ [mkCall CRet 0] ∧
    coll w' = coll w ∧ ch w' = ch w ∧ logs w' = logs w ∧ gs w' = gs w.
Proof.
  intros Hr. split; [by apply empty_idle|].
  destruct (inv_static _ _ (reachable_Inv _ _ _ Hr)) as (e0 & Hnew & _ & _ & _ & Hh).
  unfold NewDNSCollector in Hnew. simplify_eq. simpl in Hh.
  assert (∀ x, (calls w ++ [x]) !! length (calls w) = Some x) as Hl
    by (intros; by apply list_lookup_middle).
  assert (∀ x y, <[length (calls w) := y]> (calls w ++ [x]) = calls w ++ [y]) as Hi
    by (intros; rewrite insert_app_r_alt by done; by rewrite Nat.sub_diag).
  exists (put_calls (calls w ++ [mkCall CRet 0]) w). split; [|done].
  simpl. rewrite Hl. unfold Collect_step at 1. simpl. rewrite Hh. simpl.
  rewrite Hi, Hl. unfold Collect_step. simpl. by rewrite Hi.
Qed.

Lemma empty_registry_witness :
  ∃ evs w, outcome (mkConfig []) [Tick 3; Scrape; CallStep 0] = Some (evs, w) ∧
  (gs w = [] ∧ totalCount (coll w) = ∅ ∧ totalErrorCount (coll w) = ∅ ∧
   ch w = [] ∧ logs w = [] ∧ ∀ g op, EvGo g op ∉ evs) ∧
  let c := length (calls w) in
  ∃ w', run w [Scrape; CallStep c; CallStep c]
        = Some ([EvScrape c; EvAdd c 0; EvWait c], w') ∧
    calls w' = calls w ++ [mkCall CRet 0] ∧
    coll w' = coll w ∧ ch w' = ch w ∧ logs w' = logs w ∧ gs w' = gs w.
Proof.
  eexists _, _. split; [vm_compute; reflexivity|].
  eapply empty_registry.
  apply outcome_reachable with [Tick 3; Scrape; CallStep 0]. vm_compute. reflexivity.
Defined.

(** ** Panics and deadlocks *)

Lemma writing_racy w m g G :
  gs w !! g = Some G → reads m G = true → writing m w = true → racy m w.
Proof.
  intros HG Hrd Hw. unfold writing in Hw.
  apply existsb_exists in Hw as (G' & Hin & Hat).
  apply list_elem_of_In, list_elem_of_lookup in Hin as [g' HG'].
  exists g, G, g', G'. repeat split; try done.
  intros ->. rewrite HG in HG'. injection HG' as <-.
  unfold reads, at_store in *. by destruct m, (g_pc G).
Qed.

(** The only panic is the abort of the runtime, at an unsynchronised read
    that meets a write. *)
Lemma step_panic config w a msg :
  Inv config w → step w a = Panic msg →
  ∃ g m, a = Detect g ∧ racy m w ∧
         msg = "fatal error: concurrent map read and map write".
Proof.
  intros HI Hs.
  destruct (inv_static _ _ HI) as (e0 & Hnew & H1 & H2 & H3 & _).
  unfold NewDNSCollector in Hnew. simplify_eq. simpl in *.
  open_step Hs.
  8: { exists g, Total. split; [done|]. split; [|done].
       by eapply writing_racy. }
  8: { exists g, Errors. split; [done|]. split; [|done].
       by eapply writing_racy. }
  all: exfalso.
  - pose proof (inv_wg _ _ HI _ _ HC) as Hw. simpl in Hw. lia.
  - pose proof (inv_mutex _ _ HI Errors) as Hm.
    pose proof (tally_lookup (in_cs Errors) _ _ _ HG eq_refl). simpl in Hm.
    destruct (totalErrorCountMutex (coll w)); [done|lia].
  - pose proof (inv_mutex _ _ HI Total) as Hm.
    pose proof (tally_lookup (in_cs Total) _ _ _ HG eq_refl). simpl in Hm.
    destruct (totalCountMutex (coll w)); [done|lia].
  - match goal with H : _ ≠ _ |- _ => apply H; by rewrite H1 end.
  - match goal with H : _ ≠ _ |- _ => apply H; by rewrite H2 end.
  - match goal with H : _ ≠ _ |- _ => apply H; by rewrite H3 end.
  - match goal with H : calls w !! gc = Some _ |- _ => rename H into HD end.
    pose proof (inv_wg _ _ HI _ _ HD) as Hw.
    assert (live gc {| g_call := gc; g_host := gh; g_pc := LDone; g_start := gst;
                       g_err := ger; g_elapsed := gel; g_tmp := gtm |} = true) as Hl
      by (unfold live; simpl; by rewrite bool_decide_eq_true_2).
    pose proof (tally_lookup (live gc) _ _ _ HG Hl). lia.
Qed.

Lemma step_no_panic config w a msg :
  Inv config w → (∀ g, a ≠ Detect g) → step w a ≠ Panic msg.
Proof.
  intros HI Ha Hs. destruct (step_panic _ _ _ _ HI Hs) as (g & m & -> & _).
  by eapply Ha.
Qed.

Lemma work_step w a ev w' :
  step w a = Ok ev w' →
  match a with Tick _ | Scrape => True | _ => (work w' < work w)%nat end.
Proof.
  intros Hs. open_step Hs; try done; unfold work; simpl.
  all: try match goal with
       | HG : gs ?w !! ?g = Some _ |- context [<[?g:=?G']> (gs ?w)] =>
           pose proof (sum_list_with_insert (λ G, 16 - index (g_pc G))%nat
                         _ _ _ G' HG) as Hg; simpl in Hg
       end.
  all: try match goal with
       | HC : calls ?w !! ?c = Some _ |- context [<[?c:=?C']> (calls ?w)] =>
           pose proof (sum_list_with_insert (call_work (length (hosts (coll w))))
                         _ _ _ C' HC) as Hc;
           unfold call_work at 2 4 in Hc; simpl in Hc
       end.
  all: rewrite ?sum_list_with_app; simpl; try lia.
Qed.

Lemma schedule_runs answers w a g : schedule answers w = Some a → a ≠ Detect g.
Proof. unfold schedule. intros Hsch. repeat case_match; by simplify_eq. Qed.

Lemma schedule_enabled config answers w a :
  Inv config w → schedule answers w = Some a → ∃ ev w', step w a = Ok ev w'.
Proof.
  intros HI Hsch.
  destruct (step w a) as [ev w'| |msg] eqn:Hs; [by eauto| |].
  2:{ apply (step_no_panic config) in Hs; [done..|].
      intros g. by eapply schedule_runs. }
  exfalso. unfold schedule in Hsch.
  destruct (list_find _ (gs w)) as [[g G]|] eqn:Hg.
  - apply list_find_Some in Hg as (HG & Hrun & _).
    pose proof (inv_call _ _ HI _ _ HG) as [C HC]%lookup_lt_is_Some.
    simplify_eq. unfold runnable in Hrun.
    destruct G as [gc gh pc gst ger gel gtm]; simpl in *.
    destruct pc; simpl in *; rewrite HG in Hs; simpl in Hs;
      unfold resolveHost_step, lock, unlock, load, store, send, MustNewConstMetric in Hs;
      simpl in Hs; rewrite ?HC in Hs;
      try apply negb_true_iff in Hrun; rewrite ?Hrun in Hs;
      repeat case_match; simplify_eq.
  - destruct (list_find _ (calls w)) as [[c C]|] eqn:Hc; [|done].
    apply list_find_Some in Hc as (HC & Hrun & _). simplify_eq.
    simpl in Hs. rewrite HC in Hs. unfold Collect_step, call_runnable in *.
    destruct C as [[|[|]|] wg]; simpl in *; repeat case_decide; simplify_eq.
Qed.

Lemma schedule_None config answers w :
  Inv config w → schedule answers w = None → quiescent w.
Proof.
  intros HI Hsch. unfold schedule in Hsch.
  destruct (list_find _ (gs w)) as [[g G]|] eqn:Hg; [done|].
  destruct (list_find _ (calls w)) as [[c C]|] eqn:Hc; [done|].
  apply list_find_None in Hg. apply list_find_None in Hc.
  rewrite Forall_lookup in Hg. rewrite Forall_lookup in Hc.
  assert (∀ m, mutex m (coll w) = false) as Hfree.
  { intros m. pose proof (inv_mutex _ _ HI m) as Hm.
    destruct (mutex m (coll w)); [|done].
    destruct (tally_pos (in_cs m) (gs w)) as (g & G & HG & Hcs); [lia|].
    destruct (Hg _ _ HG). unfold runnable, in_cs in *.
    by destruct m, (g_pc G). }
  assert (∀ g G, gs w !! g = Some G → g_pc G = LExit) as Hex.
  { intros g G HG. specialize (Hg _ _ HG). unfold runnable in Hg.
    pose proof (Hfree Total) as HT. pose proof (Hfree Errors) as HE. simpl in HT, HE.
    rewrite HT, HE in Hg. by destruct (g_pc G). }
  unfold quiescent. apply forallb_forall. intros C [c HC]%list_elem_of_In%list_elem_of_lookup.
  specialize (Hc _ _ HC). pose proof (inv_wg _ _ HI _ _ HC) as Hw.
  rewrite (tally_none (live c)) in Hw.
  2:{ intros g G HG. unfold live. rewrite (Hex _ _ HG).
      by rewrite andb_false_r. }
  unfold call_runnable, returned, pending in *.
  destruct C as [[|[|]|] wg]; simpl in *; try done.
  destruct Hc. by apply bool_decide_eq_true.
Qed.

Lemma work_quiescent w : work w = 0%nat → quiescent w.
Proof.
  unfold work, quiescent. intros H. apply forallb_forall.
  intros C [c HC]%list_elem_of_In%list_elem_of_lookup.
  pose proof (sum_list_with_lookup (call_work (length (hosts (coll w)))) _ _ _ HC) as Hc.
  unfold call_work, returned in *. destruct (c_pc C); [lia|lia|done].
Qed.

(** From any world the invariant allows, the scheduler brings every call
    of [Collect] to its return, whatever the resolver answers. *)
Lemma drive_completes config answers fuel w :
  Inv config w → (work w ≤ fuel)%nat →
  ∃ evs' w', run w (drive fuel answers w) = Some (evs', w') ∧ quiescent w'.
Proof.
  revert w. induction fuel as [|fuel IH]; intros w HI Hw.
  - exists [], w. split; [done|]. apply work_quiescent. lia.
  - simpl. destruct (schedule answers w) as [a|] eqn:Hsch.
    + destruct (schedule_enabled _ _ _ _ HI Hsch) as (ev & w1 & Hs).
      rewrite Hs. simpl. rewrite Hs.
      pose proof (work_step _ _ _ _ Hs) as Hd.
      assert (work w1 < work w)%nat as Hlt.
      { unfold schedule in Hsch. repeat case_match; simplify_eq; done. }
      destruct (IH w1) as (evs' & w' & Hr & Hq); [by eapply step_Inv|lia|].
      rewrite Hr. eauto.
    + exists [], w. split; [done|]. by eapply schedule_None.
Qed.

Lemma drive_follows answers fuel w : follows answers (drive fuel answers w).
Proof.
  revert w. induction fuel as [|fuel IH]; intros w a Ha; simpl in Ha.
  - by apply elem_of_nil in Ha.
  - destruct (schedule answers w) as [a'|] eqn:Hsch; [|by apply elem_of_nil in Ha].
    destruct (step w a') as [ev w'| |]; try (by apply elem_of_nil in Ha).
    apply elem_of_cons in Ha as [->|Ha]; [|by eapply IH].
    unfold schedule in Hsch. repeat case_match; simplify_eq; done.
Qed.

(** Short of the abort of the runtime, nothing stops a cycle: whatever the
    resolver answers, the only panic of a statement is that abort, and a
    scheduler runs every call of [Collect] in progress to its return; then
    one probe per listed host and per call has run to its end and has sent
    its three samples, and a probe whose lookup failed has logged it. *)
Lemma completes_unless_aborted config evs w answers :
  reachable config evs w →
  (∀ a msg, step w a = Panic msg → ∃ g m, a = Detect g ∧ racy m w) ∧
  ∃ acts evs' w',
    follows answers acts ∧ run w acts = Some (evs', w') ∧ quiescent w' ∧
    (∀ host, tally (hosted host) (gs w')
             = (length (calls w') * occurrences host (Hosts config))%nat) ∧
    ∀ g G, gs w' !! g = Some G →
      g_pc G = LExit ∧
      length (sends (ops_of g (evs ++ evs'))) = 3%nat ∧
      sends (ops_of g (evs ++ evs')) `sublist_of` ch w' ∧
      (is_Some (g_err G) →
       OpLog (lookup_message (g_host G) (g_err G)) ∈ ops_of g (evs ++ evs')).
Proof.
  intros Hr. pose proof (reachable_Inv _ _ _ Hr) as HI. split.
  { intros a msg Hs. destruct (step_panic _ _ _ _ HI Hs) as (g & m & ? & ? & _).
    by exists g, m. }
  destruct (drive_completes config answers (work w) w HI) as (evs' & w' & Hrun & Hq); [done|].
  exists (drive (work w) answers w), evs', w'.
  pose proof (reachable_run _ _ _ _ _ _ Hr Hrun) as Hr'.
  pose proof (reachable_Inv _ _ _ Hr') as HI'.
  split; [apply drive_follows|]. split; [done|]. split; [done|]. split.
  - intros host. pose proof (inv_hosts _ _ HI' host) as Hh.
    destruct (quiescent_calls host _ Hq) as [Hs Hp]. rewrite Hs, Hp in Hh. lia.
  - intros g G HG.
    pose proof (quiescent_exited _ _ _ _ HI' Hq HG) as Hpc. split; [done|].
    pose proof (sends_sublist _ _ _ g Hr') as Hsub.
    destruct (probe_script _ _ _ _ _ Hr' HG Hpc) as (v1 & t2 & v2 & a & b & Hops & _).
    rewrite Hops in *.
    destruct (script_tally (coll w') (g_host G) (g_start G) (g_err G) v1 t2 v2 a b)
      as (_ & _ & _ & Hs & _).
    split; [by rewrite Hs|]. split; [done|].
    intros [s ->]. unfold script. set_solver.
Qed.

(** C6 at two hosts of which the second fails: the failing probe is
    inside [e.totalErrorCount[host] += 1] of line 93 when the probe of the
    first host reads [e.totalErrorCount] at line 106, without the mutex;
    the runtime aborts the process.  The failure is never logged, the
    call of [Collect] never returns, and the only sample sent is the
    attempt count of the first host.  The unsynchronised read is the
    defect of C8. *)
Lemma lookup_failure_aborts :
  ∃ evs w G,
    outcome mixed_config abort_schedule = Some (evs, w) ∧
    gs w !! 1%nat = Some G ∧ g_host G = "bad.invalid" ∧
    g_err G = Some "no such host" ∧ g_pc G = LErrStore ∧
    racy Errors w ∧
    step w (Detect 0) = Panic "fatal error: concurrent map read and map write" ∧
    logs w = [] ∧
    ch w = [mkMetric (total (coll w)) CounterValue (FromInt 1) ["example.org"]] ∧
    calls w = [mkCall (CRange []) 2] ∧ ¬ quiescent w.
Proof.
  eexists _, _, _. split; [vm_compute; reflexivity|].
  split; [reflexivity|]. do 3 (split; [reflexivity|]).
  split; [eexists 0%nat, _, 1%nat, _; split; [done|]; repeat split; reflexivity|].
  split; [by vm_compute|]. do 3 (split; [reflexivity|]).
  by vm_compute.
Qed.

(** ** Where the code departs from its documentation *)

(** The elapsed time sent is that of the probe's own two clock readings:
    line 88 is its first statement; line 99 follows the lookup directly
    when it succeeds, and follows the log call when it fails. *)
Lemma latency_sample config evs w g G :
  reachable config evs w → gs w !! g = Some G → g_pc G = LExit →
  ∃ t2, ops_of g evs !! 0%nat = Some (OpNow (g_start G)) ∧
    ops_of g evs !! 1%nat = Some (OpLookup (g_err G)) ∧
    ops_of g evs !! (if g_err G is Some _ then 7 else 2)%nat = Some (OpSince t2) ∧
    sends (ops_of g evs) !! 2%nat
    = Some (mkMetric (latency (coll w)) GaugeValue
              (Seconds (Since t2 (g_start G))) [g_host G]).
Proof.
  intros Hr HG Hpc.
  destruct (probe_script _ _ _ _ _ Hr HG Hpc) as (v1 & t2 & v2 & a & b & -> & _).
  exists t2. by destruct (g_err G).
Qed.

(** C7 at a failing lookup: the probe starts at 0 and the lookup fails at
    10, but line 99 runs after the error count update and the log call,
    at 15, and the sample says 15 ns. *)
Lemma latency_covers_error_path :
  ∃ evs w,
    outcome failing_config slow_log_schedule = Some (evs, w) ∧
    evs !! 3%nat = Some (EvGo 0 (OpNow 0)) ∧
    evs !! 5%nat = Some (EvGo 0 (OpLookup (Some "no such host"))) ∧
    time_after (take 5 evs) = 10 ∧
    ch w !! 2%nat
    = Some (mkMetric (latency (coll w)) GaugeValue (Seconds 15) ["bad.invalid"]).
Proof.
  eexists _, _. split; [vm_compute; reflexivity|]. repeat split; reflexivity.
Qed.

(** C8 at two hosts: the first probe reads [e.totalCount] at line 105
    while the mutex is held by the second, which is between the load and
    the store of line 102; both statements can run next. *)
Lemma unlocked_read_races :
  ∃ evs w,
    outcome two_config race_schedule = Some (evs, w) ∧
    totalCountMutex (coll w) = true ∧ racy Total w ∧
    (∃ ev w', step w (Go 0) = Ok ev w') ∧
    (∃ ev w', step w (Go 1) = Ok ev w').
Proof.
  eexists _, _. split; [vm_compute; reflexivity|]. split; [reflexivity|].
  split; [|split; eexists _, _; vm_compute; reflexivity].
  eexists 0%nat, _, 1%nat, _. split; [done|]. repeat split; reflexivity.
Qed.

(** ... and at one host listed twice: the first probe stored 1, the
    second stored 2, and the sample of the first says 2. *)
Lemma read_back_sees_other_probe :
  ∃ evs w,
    outcome twice_config stale_schedule = Some (evs, w) ∧
    ops_of 0 evs !! 5%nat = Some (OpStore Total "a" 1) ∧
    ops_of 0 evs !! 7%nat
    = Some (OpSend (mkMetric (total (coll w)) CounterValue (FromInt 2) ["a"])).
Proof.
  eexists _, _. split; [vm_compute; reflexivity|]. split; reflexivity.
Qed.

(** * Further properties of the collector *)

(** Induction over the reachable worlds. *)
Lemma reachable_ind config (P : World → Prop) :
  (∀ w0, boot config = Some w0 → P w0) →
  (∀ w a ev w', Inv config w → P w → step w a = Ok ev w' → P w') →
  ∀ evs w, reachable config evs w → P w.
Proof.
  intros H0 Hstep evs w (w0 & acts & Hb & Hr).
  assert (Inv config w ∧ P w) as [_ ?]; [|done].
  revert acts evs w Hr. apply (run_ind (λ _ w, Inv config w ∧ P w)).
  - split; [by apply boot_Inv|by apply H0].
  - intros evs w a ev w' [HI HP] Hs. split; [by eapply step_Inv|by eapply Hstep].
Qed.

(** ** Mutual exclusion *)

(** X1: the mutex of a count map is locked exactly while one goroutine is
    between its [Lock] and its [Unlock], never two; with every call of
    [Collect] returned, both mutexes are unlocked. *)
Theorem mutual_exclusion config evs w m :
  reachable config evs w →
  tally (in_cs m) (gs w) = (if mutex m (coll w) then 1 else 0)%nat ∧
  (∀ g G g' G', gs w !! g = Some G → in_cs m G = true →
                gs w !! g' = Some G' → in_cs m G' = true → g = g') ∧
  (quiescent w → mutex m (coll w) = false).
Proof.
  intros Hr. pose proof (reachable_Inv _ _ _ Hr) as HI.
  pose proof (inv_mutex _ _ HI m) as Hm. split; [done|]. split.
  - intros g G g' G' HG Hc HG' Hc'. destruct (decide (g = g')) as [|Hne]; [done|].
    pose proof (tally_two (in_cs m) _ _ _ _ _ Hne HG HG' Hc Hc').
    destruct (mutex m (coll w)); lia.
  - intros Hq. destruct (mutex m (coll w)); [|done].
    destruct (tally_pos (in_cs m) (gs w)) as (g & G & HG & Hc); [lia|].
    pose proof (quiescent_exited _ _ _ _ HI Hq HG) as Hpc.
    unfold in_cs in Hc. rewrite Hpc in Hc. by destruct m.
Qed.

Lemma mutual_exclusion_witness :
  ∃ evs w, outcome two_config race_schedule = Some (evs, w) ∧
    tally (in_cs Total) (gs w) = (if mutex Total (coll w) then 1 else 0)%nat ∧
    (∀ g G g' G', gs w !! g = Some G → in_cs Total G = true →
                  gs w !! g' = Some G' → in_cs Total G' = true → g = g') ∧
    (quiescent w → mutex Total (coll w) = false).
Proof.
  eexists _, _. split; [vm_compute; reflexivity|].
  eapply (mutual_exclusion two_config).
  apply outcome_reachable with race_schedule. vm_compute. reflexivity.
Defined.

(** ** No lost increment *)

(** X2: in every reachable state, whatever the interleaving and however
    many calls of [Collect] overlap, the count stored for a host is the
    number of increments its probes have run, as an int: no increment is
    lost and none is counted twice. *)
Theorem no_lost_increment config evs w m host :
  reachable config evs w →
  get (table m (coll w)) host = wrap64 (Z.of_nat (tally (counted m host) (gs w))).
Proof. intros Hr. apply (inv_count _ _ (reachable_Inv _ _ _ Hr)). Qed.

Lemma no_lost_increment_witness :
  ∃ evs w, outcome twice_config stale_schedule = Some (evs, w) ∧
    get (table Total (coll w)) "a"
    = wrap64 (Z.of_nat (tally (counted Total "a") (gs w))) ∧
    tally (counted Total "a") (gs w) = 2%nat.
Proof.
  eexists _, _. split; [vm_compute; reflexivity|]. split; [|reflexivity].
  eapply (no_lost_increment twice_config).
  apply outcome_reachable with stale_schedule. vm_compute. reflexivity.
Defined.

Lemma tally_insert_mono {A} (p : A → bool) l i x y :
  l !! i = Some x → (p x = true → p y = true) →
  (tally p l ≤ tally p (<[i:=y]> l) ≤ S (tally p l))%nat.
Proof.
  intros Hi Hp. pose proof (tally_insert p l i x y Hi) as H.
  destruct (p x), (p y); lia.
Qed.

Lemma step_counted m host w a ev w' :
  step w a = Ok ev w' →
  (tally (counted m host) (gs w) ≤ tally (counted m host) (gs w')
   ≤ S (tally (counted m host) (gs w)))%nat.
Proof.
  intros Hs. open_step Hs; simpl; try lia.
  all: try (rewrite tally_snoc; unfold counted; destruct m; simpl;
            rewrite ?andb_false_r; lia).
  all: apply (tally_insert_mono _ _ _ _ _ HG).
  all: unfold counted, stored; simpl; destruct m; simpl; rewrite ?andb_false_r; done.
Qed.

(** X3: one statement never decreases a count and raises it by at most
    one, while fewer than 2^63 probes have been launched. *)
Theorem counts_monotone config evs w a ev w' m host :
  reachable config evs w → step w a = Ok ev w' →
  Z.of_nat (length (gs w')) < 2 ^ 63 →
  get (table m (coll w)) host ≤ get (table m (coll w')) host
  ≤ get (table m (coll w)) host + 1.
Proof.
  intros Hr Hs Hlen. pose proof (reachable_Inv _ _ _ Hr) as HI.
  pose proof (step_Inv _ _ _ _ _ HI Hs) as HI'.
  rewrite (inv_count _ _ HI m host), (inv_count _ _ HI' m host).
  pose proof (step_counted m host _ _ _ _ Hs).
  pose proof (tally_le_length (counted m host) (gs w')).
  rewrite !wrap64_small by lia. lia.
Qed.

Lemma counts_monotone_witness :
  ∃ evs w ev w', outcome failing_config failing_schedule = Some (evs, w) ∧
    step w (Go 0) = Ok ev w' ∧
    get (table Errors (coll w)) "bad.invalid" ≤ get (table Errors (coll w')) "bad.invalid"
    ≤ get (table Errors (coll w)) "bad.invalid" + 1.
Proof.
  eexists _, _, _, _. split; [vm_compute; reflexivity|]. split; [vm_compute; reflexivity|].
  eapply (counts_monotone failing_config _ _ (Go 0)).
  - apply outcome_reachable with failing_schedule. vm_compute. reflexivity.
  - reflexivity.
  - simpl. lia.
Defined.

(** ** The join of [Collect] *)

Lemma launched_other_call config w c host :
  Inv config w → (length (calls w) ≤ c)%nat → tally (launched_by c host) (gs w) = 0%nat.
Proof.
  intros HI Hc. apply tally_none. intros i G HG.
  pose proof (inv_call _ _ HI _ _ HG). unfold launched_by.
  rewrite bool_decide_eq_false_2; [done|lia].
Qed.

Lemma step_launches config w a ev w' :
  Inv config w → launches config w → step w a = Ok ev w' → launches config w'.
Proof.
  intros HI Hl Hs c' C' host HC'.
  pose proof (inv_static _ _ HI) as (e0 & Hnew & _ & _ & _ & Hhs).
  unfold NewDNSCollector in Hnew. simplify_eq. simpl in Hhs.
  open_step Hs; simpl in *; eauto.
  all: try (rewrite (tally_insert_same _ _ _ _ _ HG) by done).
  all: try (by apply Hl).
  - apply lookup_snoc_Some in HC' as [?|[-> ->]]; [eauto|]. simpl.
    rewrite (launched_other_call config) by done. by rewrite occurrences_nil.
  - destruct (decide (c = c')) as [->|];
      [rewrite list_lookup_insert_eq in HC' by (by eapply lookup_lt_Some)
      |rewrite list_lookup_insert_ne in HC' by done; eauto].
    simplify_eq/=. specialize (Hl _ _ host HC). unfold due in *. simpl in *.
    rewrite ?occurrences_nil in Hl. rewrite Hhs. cbv [pending c_pc]. lia.
  - destruct (decide (c = c')) as [->|];
      [rewrite list_lookup_insert_eq in HC' by (by eapply lookup_lt_Some)
      |rewrite list_lookup_insert_ne in HC' by done; eauto].
    simplify_eq/=. specialize (Hl _ _ host HC). by unfold due in *.
  - rewrite tally_snoc. unfold launched_by at 2, hosted. simpl.
    destruct (decide (c = c')) as [->|];
      [rewrite list_lookup_insert_eq in HC' by (by eapply lookup_lt_Some)
      |rewrite list_lookup_insert_ne in HC' by done].
    + simplify_eq/=. specialize (Hl _ _ host HC). unfold due in *.
      cbv [pending c_pc] in *.
      rewrite occurrences_cons in Hl. rewrite bool_decide_eq_true_2 by done.
      simpl in *. lia.
    + rewrite bool_decide_eq_false_2 by done. simpl. rewrite Nat.add_0_r. eauto.
  - match goal with H : calls w !! gc = Some ?D |- _ => rename H into HD end.
    destruct (decide (gc = c')) as [->|];
      [rewrite list_lookup_insert_eq in HC' by (by eapply lookup_lt_Some)
      |rewrite list_lookup_insert_ne in HC' by done; eauto].
    simplify_eq/=. apply (Hl _ _ host HD).
Qed.

Lemma reachable_launches config evs w : reachable config evs w → launches config w.
Proof.
  apply reachable_ind.
  - intros w0 (_ & Hc & _)%boot_world c C host HC. by rewrite Hc in HC.
  - intros. by eapply step_launches.
Qed.

(** X4: a call of [Collect] that has returned has launched, for every
    host, as many goroutines as the registry lists that host, each of them
    has run its [wg.Done()], and the counter of its [wg] is 0: [wg.Wait()]
    lets no call return before its probes have finished. *)
Theorem collect_joins config evs w c C :
  reachable config evs w → calls w !! c = Some C → returned C = true →
  (∀ host, tally (launched_by c host) (gs w) = occurrences host (Hosts config)) ∧
  (∀ g G, gs w !! g = Some G → g_call G = c → g_pc G = LExit) ∧
  c_wg C = 0.
Proof.
  intros Hr HC Hret. pose proof (reachable_Inv _ _ _ Hr) as HI.
  pose proof (inv_ret _ _ HI _ _ HC Hret) as Hwg.
  pose proof (inv_wg _ _ HI _ _ HC) as Hw. rewrite Hwg in Hw.
  split; [|split; [|done]].
  - intros host. pose proof (reachable_launches _ _ _ Hr _ _ host HC) as Hl.
    unfold due, returned, pending, started in *. destruct (c_pc C); try done.
    rewrite occurrences_nil in Hl. lia.
  - intros g G HG Hc.
    assert (tally (live c) (gs w) = 0%nat) as H0 by lia.
    pose proof (tally_zero _ _ _ _ H0 HG) as Hlive. unfold live in Hlive.
    rewrite bool_decide_eq_true_2 in Hlive by done. simpl in Hlive.
    by apply negb_false_iff, bool_decide_eq_true in Hlive.
Qed.

Lemma collect_joins_witness :
  ∃ evs w C, outcome mixed_config mixed_schedule = Some (evs, w) ∧
    calls w !! 0%nat = Some C ∧
    (∀ host, tally (launched_by 0 host) (gs w) = occurrences host (Hosts mixed_config)) ∧
    (∀ g G, gs w !! g = Some G → g_call G = 0%nat → g_pc G = LExit) ∧
    c_wg C = 0.
Proof.
  eexists _, _, _. split; [vm_compute; reflexivity|]. split; [reflexivity|].
  eapply (collect_joins mixed_config).
  - apply outcome_reachable with mixed_schedule. vm_compute. reflexivity.
  - reflexivity.
  - reflexivity.
Defined.

(** ** The samples on the channel *)

Lemma series_desc_inj config w s s' :
  Inv config w → series_desc (coll w) s = series_desc (coll w) s' → s = s'.
Proof.
  intros HI. destruct (inv_static _ _ HI) as (e0 & Hnew & H1 & H2 & H3 & _).
  unfold NewDNSCollector in Hnew. simplify_eq. simpl in *.
  destruct s, s'; simpl; rewrite ?H1, ?H2, ?H3; intros Heq; try done;
    by vm_compute in Heq.
Qed.

Ltac send_case HG He HT :=
  rewrite tally_snoc, He; unfold is_sample; simpl;
  first
    [ rewrite (tally_insert_incr _ _ _ _ _ HG)
        by (unfold has_sent, hosted; simpl;
            rewrite ?bool_decide_eq_true_2 by done; done);
      rewrite !bool_decide_eq_true_2 by done; simpl; lia
    | rewrite (tally_insert_same _ _ _ _ _ HG)
        by (unfold has_sent, hosted; simpl;
            rewrite ?bool_decide_eq_false_2 by done; done);
      first
        [ rewrite (bool_decide_eq_false_2 (_ = [_])) by congruence;
          rewrite andb_false_r; simpl; lia
        | rewrite (bool_decide_eq_false_2 (_ = _))
            by (intros Heq; by specialize (HT Heq));
          simpl; lia ] ].

Lemma step_emitted config w a ev w' :
  Inv config w → emitted w → step w a = Ok ev w' → emitted w'.
Proof.
  intros HI He Hs s host. specialize (He s host).
  pose proof (series_desc_inj config w STotal s HI) as HT.
  pose proof (series_desc_inj config w SError s HI) as HE.
  pose proof (series_desc_inj config w SLatency s HI) as HL.
  open_step Hs; simpl; try done.
  all: try (rewrite (tally_insert_same _ _ _ _ _ HG)
              by (unfold has_sent; simpl; by destruct s);
            first [exact He | by destruct s]).
  - rewrite tally_snoc, He.
    replace (has_sent s host (spawn c hst)) with false; [lia|].
    unfold has_sent. simpl. destruct s; by rewrite andb_false_r.
  - destruct s; simpl in *; destruct (decide (gh = host)) as [->|Hne];
      send_case HG He HT.
  - destruct s; simpl in *; destruct (decide (gh = host)) as [->|Hne];
      send_case HG He HE.
  - destruct s; simpl in *; destruct (decide (gh = host)) as [->|Hne];
      send_case HG He HL.
Qed.

Lemma reachable_emitted config evs w : reachable config evs w → emitted w.
Proof.
  apply reachable_ind.
  - intros w0 (Hg & _ & Hc & _)%boot_world s host. by rewrite Hg, Hc.
  - intros. by eapply step_emitted.
Qed.

(** X5: on the channel, the samples of a series labelled with a host are
    as many as the probes of that host that have sent theirs; once the N
    calls of [Collect] have returned they are N times the number of times
    the registry lists the host, for each of the three series. *)
Theorem samples_after_cycles config evs w s host :
  reachable config evs w →
  tally (is_sample (coll w) s host) (ch w) = tally (has_sent s host) (gs w) ∧
  (quiescent w →
   tally (is_sample (coll w) s host) (ch w)
   = (length (calls w) * occurrences host (Hosts config))%nat).
Proof.
  intros Hr. pose proof (reachable_Inv _ _ _ Hr) as HI.
  pose proof (reachable_emitted _ _ _ Hr s host) as He. split; [done|].
  intros Hq. rewrite He, (tally_ext _ (hosted host)).
  - pose proof (inv_hosts _ _ HI host) as Hh.
    destruct (quiescent_calls host _ Hq) as [Hs Hp]. rewrite Hs, Hp in Hh. lia.
  - intros g G HG. unfold has_sent.
    rewrite (quiescent_exited _ _ _ _ HI Hq HG). destruct s; simpl; apply andb_true_r.
Qed.

Lemma samples_after_cycles_witness :
  ∃ evs w, outcome mixed_config mixed_schedule = Some (evs, w) ∧
    tally (is_sample (coll w) SLatency "bad.invalid") (ch w)
    = tally (has_sent SLatency "bad.invalid") (gs w) ∧
    (quiescent w →
     tally (is_sample (coll w) SLatency "bad.invalid") (ch w)
     = (length (calls w) * occurrences "bad.invalid" (Hosts mixed_config))%nat).
Proof.
  eexists _, _. split; [vm_compute; reflexivity|].
  eapply (samples_after_cycles mixed_config).
  apply outcome_reachable with mixed_schedule. vm_compute. reflexivity.
Defined.

(** What a send carries. *)
Lemma step_send w a g0 m w' :
  step w a = Ok (EvGo g0 (OpSend m)) w' →
  ∃ G, gs w !! g0 = Some G ∧ labelValues m = [g_host G] ∧
    ((g_pc G = LSendTotal ∧ desc m = total (coll w) ∧
      value m = FromInt (get (totalCount (coll w)) (g_host G))) ∨
     (g_pc G = LSendError ∧ desc m = totalError (coll w) ∧
      value m = FromInt (get (totalErrorCount (coll w)) (g_host G))) ∨
     (g_pc G = LSendLatency ∧ desc m = latency (coll w) ∧
      value m = Seconds (g_elapsed G))).
Proof.
  intros Hs. open_step Hs; eexists; (split; [done|]); simpl; (split; [done|]).
  - left. by simpl.
  - right; left. by simpl.
  - right; right. by simpl.
Qed.

Lemma step_descs config w a ev w' :
  Inv config w → step w a = Ok ev w' →
  total (coll w') = total (coll w) ∧ totalError (coll w') = totalError (coll w) ∧
  latency (coll w') = latency (coll w).
Proof.
  intros HI Hs.
  destruct (inv_static _ _ HI) as (e0 & Hnew & H1 & H2 & H3 & _).
  destruct (step_static _ _ _ _ _ HI Hs) as (e1 & Hnew' & H1' & H2' & H3' & _).
  assert (e1 = e0) as -> by congruence. by rewrite H1, H2, H3, H1', H2', H3'.
Qed.

Lemma descs_distinct config w :
  Inv config w →
  total (coll w) ≠ totalError (coll w) ∧ total (coll w) ≠ latency (coll w) ∧
  totalError (coll w) ≠ latency (coll w).
Proof.
  intros HI. destruct (inv_static _ _ HI) as (e0 & Hnew & H1 & H2 & H3 & _).
  unfold NewDNSCollector in Hnew. simplify_eq. simpl in *. rewrite H1, H2, H3.
  repeat split; intros Heq; by vm_compute in Heq.
Qed.

(** X6: every sample [Collect] sends carries one of the three descriptors
    [Describe] announces, and these three have distinct names. *)
Theorem samples_described config evs w m :
  reachable config evs w → m ∈ ch w →
  desc m ∈ Describe (coll w) [] ∧ NoDup (fqName <$> Describe (coll w) []).
Proof.
  intros Hr Hm. destruct (reachable_samples _ _ _ _ Hr Hm) as [Hd _]. split.
  - unfold Describe. simpl. destruct Hd as [[-> _]|[[-> _]|[-> _]]]; set_solver.
  - destruct (inv_static _ _ (reachable_Inv _ _ _ Hr)) as (e0 & Hnew & H1 & H2 & H3 & _).
    unfold NewDNSCollector in Hnew. simplify_eq. unfold Describe. simpl in *.
    rewrite H1, H2, H3. apply (bool_decide_unpack _). by vm_compute.
Qed.

Lemma samples_described_witness :
  ∃ evs w m, outcome mixed_config mixed_schedule = Some (evs, w) ∧
    ch w !! 4%nat = Some m ∧
    desc m ∈ Describe (coll w) [] ∧ NoDup (fqName <$> Describe (coll w) []).
Proof.
  eexists _, _, _. split; [vm_compute; reflexivity|]. split; [reflexivity|].
  eapply (samples_described mixed_config).
  - apply outcome_reachable with mixed_schedule. vm_compute. reflexivity.
  - do 4 apply list_elem_of_further. apply list_elem_of_here.
Defined.

(** ** The values of the samples *)

Lemma step_values config w a ev w' :
  Inv config w → values_bounded w → step w a = Ok ev w' → values_bounded w'.
Proof.
  intros HI Hv Hs m host Hm Hl.
  destruct (step_descs _ _ _ _ _ HI Hs) as (-> & -> & _).
  destruct (descs_distinct _ _ HI) as (Hd1 & Hd2 & Hd3).
  pose proof (step_counted Total host _ _ _ _ Hs) as HmT.
  pose proof (step_counted Errors host _ _ _ _ Hs) as HmE.
  rewrite (step_ch _ _ _ _ Hs) in Hm. apply elem_of_app in Hm as [Hm|Hm].
  - destruct (Hv _ _ Hm Hl) as [HT HE]. split.
    + intros Hd. destruct (HT Hd) as (k & ? & ?). exists k. split; [lia|done].
    + intros Hd. destruct (HE Hd) as (k & ? & ?). exists k. split; [lia|done].
  - destruct ev as [| | | | |g []]; try (by apply elem_of_nil in Hm).
    apply list_elem_of_singleton in Hm as ->.
    destruct (step_send _ _ _ _ _ Hs) as (G & HG & Hlab & Hcase).
    rewrite Hlab in Hl. simplify_eq.
    destruct Hcase as [(Hpc & Hd & Hval)|[(Hpc & Hd & Hval)|(Hpc & Hd & Hval)]];
      rewrite Hd, Hval; (split; intros Heq; [|]); try congruence.
    + exists (tally (counted Total (g_host G)) (gs w)). split.
      * assert (counted Total (g_host G) G = true) as Hc
          by (unfold counted, stored; rewrite Hpc; simpl;
              by rewrite bool_decide_eq_true_2).
        pose proof (tally_lookup _ _ _ _ HG Hc). lia.
      * f_equal. apply (inv_count _ _ HI Total).
    + exists (tally (counted Errors (g_host G)) (gs w)). split; [lia|].
      f_equal. apply (inv_count _ _ HI Errors).
Qed.

Lemma reachable_values config evs w : reachable config evs w → values_bounded w.
Proof.
  apply reachable_ind.
  - intros w0 (_ & _ & Hc & _)%boot_world m host Hm. rewrite Hc in Hm.
    by apply elem_of_nil in Hm.
  - intros. by eapply step_values.
Qed.

(** X7: the attempt count a sample carries for a host is the count after
    at least one and at most all of the increments run so far for that
    host: a probe reads at line 105 after its own increment of line 102.
    The error count a sample carries is the count after at most all of
    the error increments run so far. *)
Theorem sample_counts_bounded config evs w m host :
  reachable config evs w → m ∈ ch w → labelValues m = [host] →
  (desc m = total (coll w) →
   ∃ k, (1 ≤ k ≤ tally (counted Total host) (gs w))%nat ∧
        value m = FromInt (wrap64 (Z.of_nat k))) ∧
  (desc m = totalError (coll w) →
   ∃ k, (k ≤ tally (counted Errors host) (gs w))%nat ∧
        value m = FromInt (wrap64 (Z.of_nat k))).
Proof. intros Hr. by apply (reachable_values config evs). Qed.

Lemma sample_counts_bounded_witness :
  ∃ evs w m, outcome twice_config stale_schedule = Some (evs, w) ∧
    ch w !! 0%nat = Some m ∧
    (desc m = total (coll w) →
     ∃ k, (1 ≤ k ≤ tally (counted Total "a") (gs w))%nat ∧
          value m = FromInt (wrap64 (Z.of_nat k))) ∧
    (desc m = totalError (coll w) →
     ∃ k, (k ≤ tally (counted Errors "a") (gs w))%nat ∧
          value m = FromInt (wrap64 (Z.of_nat k))).
Proof.
  eexists _, _, _. split; [vm_compute; reflexivity|]. split; [reflexivity|].
  eapply (sample_counts_bounded twice_config).
  - apply outcome_reachable with stale_schedule. vm_compute. reflexivity.
  - apply list_elem_of_here.
  - reflexivity.
Defined.

(** ** Time *)

Lemma step_clock w a ev w' : step w a = Ok ev w' → clock w ≤ clock w'.
Proof. intros Hs. open_step Hs; simpl; lia. Qed.

Lemma Since_bounds now start : 0 ≤ start ≤ now → 0 ≤ Since now start ≤ now - start.
Proof. unfold Since. lia. Qed.

Lemma step_timed w a ev w' : timed w → step w a = Ok ev w' → timed w'.
Proof.
  intros [Hc Hg] Hs. pose proof (step_clock _ _ _ _ Hs) as Hmono.
  split; [lia|]. intros g' G' HG'.
  open_step Hs; simpl in *.
  all: try (destruct (Hg _ _ HG'); split; intros; lia).
  all: try (apply lookup_snoc_Some in HG' as [?|[_ ->]];
            [by eapply Hg|simpl; split; intros; lia]).
  all: destruct (decide (g = g')) as [->|Hne];
    [ rewrite list_lookup_insert_eq in HG' by (by eapply lookup_lt_Some)
    | rewrite list_lookup_insert_ne in HG' by done; by eapply Hg ].
  all: simplify_eq; destruct (Hg _ _ HG) as [H1 H2]; simpl in *.
  all: try pose proof (Since_bounds (clock w) gst).
  all: split; intros; lia.
Qed.

Lemma reachable_timed config evs w : reachable config evs w → timed w.
Proof.
  apply reachable_ind.
  - intros w0 (Hg & _ & _ & _ & Hc & _)%boot_world. split; [lia|].
    intros g G HG. by rewrite Hg in HG.
  - intros. by eapply step_timed.
Qed.

Lemma step_latencies config w a ev w' :
  Inv config w → timed w → latencies_bounded w → step w a = Ok ev w' →
  latencies_bounded w'.
Proof.
  intros HI [Hc Hg] Hv Hs m Hm.
  destruct (step_descs _ _ _ _ _ HI Hs) as (_ & _ & ->).
  destruct (descs_distinct _ _ HI) as (Hd1 & Hd2 & Hd3).
  pose proof (step_clock _ _ _ _ Hs) as Hmono.
  rewrite (step_ch _ _ _ _ Hs) in Hm. apply elem_of_app in Hm as [Hm|Hm]; intros Hl.
  - destruct (Hv _ Hm Hl) as (d & ? & ?). exists d. split; [done|lia].
  - destruct ev as [| | | | |g []]; try (by apply elem_of_nil in Hm).
    apply list_elem_of_singleton in Hm as ->.
    destruct (step_send _ _ _ _ _ Hs) as (G & HG & Hlab & Hcase).
    destruct Hcase as [(Hpc & Hd & Hval)|[(Hpc & Hd & Hval)|(Hpc & Hd & Hval)]];
      try congruence.
    destruct (Hg _ _ HG) as [H1 H2]. rewrite Hpc in H1, H2. simpl in *.
    exists (g_elapsed G). split; [done|lia].
Qed.

Lemma reachable_latencies config evs w : reachable config evs w → latencies_bounded w.
Proof.
  intros (w0 & acts & Hb & Hrun).
  assert (Inv config w ∧ timed w ∧ latencies_bounded w) as (_ & _ & ?); [|done].
  revert acts evs w Hrun.
  apply (run_ind (λ _ w, Inv config w ∧ timed w ∧ latencies_bounded w)).
  - pose proof (boot_world _ _ Hb) as (Hg & _ & Hc & _ & Hclk & _).
    split; [by apply boot_Inv|]. split.
    + split; [lia|]. intros g G HG. by rewrite Hg in HG.
    + intros m Hm. rewrite Hc in Hm. by apply elem_of_nil in Hm.
  - intros evs w a ev w' (HI & Ht & Hl) Hs.
    split; [by eapply step_Inv|]. split; [by eapply step_timed|by eapply step_latencies].
Qed.

(** X8: the elapsed time a latency sample carries is never negative and
    never more than the time since the exporter started. *)
Theorem latency_bounds config evs w m :
  reachable config evs w → m ∈ ch w → desc m = latency (coll w) →
  ∃ d, value m = Seconds d ∧ 0 ≤ d ≤ clock w.
Proof. intros Hr. by apply (reachable_latencies config evs). Qed.

Lemma latency_bounds_witness :
  ∃ evs w m, outcome failing_config slow_log_schedule = Some (evs, w) ∧
    ch w !! 2%nat = Some m ∧
    ∃ d, value m = Seconds d ∧ 0 ≤ d ≤ clock w.
Proof.
  eexists _, _, _. split; [vm_compute; reflexivity|]. split; [reflexivity|].
  eapply (latency_bounds failing_config).
  - apply outcome_reachable with slow_log_schedule. vm_compute. reflexivity.
  - do 2 apply list_elem_of_further. apply list_elem_of_here.
  - reflexivity.
Defined.

(** ** The log *)

Lemma step_logs w a ev w' :
  step w a = Ok ev w' →
  logs w' = logs w ++ match ev with EvGo _ (OpLog msg) => [msg] | _ => [] end.
Proof. intros Hs. open_step Hs; simpl; by rewrite ?app_nil_r. Qed.

Lemma step_logged w a ev w' g0 G0 :
  step w a = Ok ev w' → gs w !! g0 = Some G0 → logged G0 = true →
  ∃ G', gs w' !! g0 = Some G' ∧ logged G' = true ∧
        g_host G' = g_host G0 ∧ g_err G' = g_err G0.
Proof.
  intros Hs HG0 Hl. open_step Hs; simpl; eauto.
  { exists G0. by rewrite lookup_app_l by (by eapply lookup_lt_Some). }
  all: destruct (decide (g = g0)) as [->|Hne];
    [ rewrite list_lookup_insert_eq by (by eapply lookup_lt_Some)
    | rewrite list_lookup_insert_ne by done; eauto ].
  all: simplify_eq; simpl in *; try done.
  all: eexists; (split; [done|]); try done.
Qed.

Lemma step_log_line config w a g0 msg w' :
  Inv config w → step w a = Ok (EvGo g0 (OpLog msg)) w' →
  ∃ G', gs w' !! g0 = Some G' ∧ logged G' = true ∧
        msg = lookup_message (g_host G') (g_err G').
Proof.
  intros HI Hs. open_step Hs. simpl.
  rewrite list_lookup_insert_eq by (by eapply lookup_lt_Some).
  eexists. split; [done|]. split; [|done].
  destruct (inv_err _ _ HI _ _ HG) as [s Hs]; [simpl; lia|].
  simpl in Hs. by subst.
Qed.

Lemma step_logbook config w a ev w' :
  Inv config w → logbook w → step w a = Ok ev w' → logbook w'.
Proof.
  intros HI [Hn Hl] Hs. split.
  - open_step Hs; simpl; try done.
    all: try (rewrite tally_snoc; simpl; lia).
    all: try (rewrite (tally_insert_same _ _ _ _ _ HG) by (by unfold logged); done).
    rewrite length_app, Hn. simpl.
    destruct (inv_err _ _ HI _ _ HG) as [s Hs]; [simpl; lia|].
    simpl in Hs. subst.
    rewrite (tally_insert_incr _ _ _ _ _ HG) by done. lia.
  - intros l Hin. rewrite (step_logs _ _ _ _ Hs) in Hin.
    apply elem_of_app in Hin as [Hin|Hin].
    + destruct (Hl _ Hin) as (g & G & HG & Hlg & ->).
      destruct (step_logged _ _ _ _ _ _ Hs HG Hlg) as (G' & HG' & Hlg' & <- & <-).
      by exists g, G'.
    + destruct ev as [| | | | |g []]; try (by apply elem_of_nil in Hin).
      apply list_elem_of_singleton in Hin as ->.
      destruct (step_log_line _ _ _ _ _ _ HI Hs) as (G' & HG' & Hlg' & ->).
      by exists g, G'.
Qed.

Lemma reachable_logbook config evs w : reachable config evs w → logbook w.
Proof.
  apply reachable_ind.
  - intros w0 (Hg & _ & _ & Hl & _)%boot_world. split.
    + by rewrite Hg, Hl.
    + intros l Hin. rewrite Hl in Hin. by apply elem_of_nil in Hin.
  - intros. by eapply step_logbook.
Qed.

Lemma writers_snoc evs ev :
  writers (evs ++ [ev])
  = writers evs ++ match ev with EvGo g (OpLog _) => [g] | _ => [] end.
Proof. unfold writers. rewrite omap_app. f_equal. by destruct ev as [| | | | |g []]. Qed.

(** A probe that has run line 96 after a step had run it before, or the
    step is its line 96. *)
Lemma step_logged_inv w a ev w' g0 G' :
  step w a = Ok ev w' → gs w' !! g0 = Some G' → logged G' = true →
  (∃ G, gs w !! g0 = Some G ∧ logged G = true) ∨ (∃ msg, ev = EvGo g0 (OpLog msg)).
Proof.
  intros Hs HG' Hl. open_step Hs; simpl in *; eauto.
  { apply lookup_snoc_Some in HG' as [?|[_ ?]]; [eauto|by simplify_eq]. }
  all: destruct (decide (g = g0)) as [->|Hne];
    [ rewrite list_lookup_insert_eq in HG' by (by eapply lookup_lt_Some)
    | rewrite list_lookup_insert_ne in HG' by done; eauto ].
  all: simplify_eq; simpl in *; eauto.
  all: try (by destruct ans).
Qed.

(** Line 96 is run by a probe that has not run it. *)
Lemma step_log_first w a g0 msg w' :
  step w a = Ok (EvGo g0 (OpLog msg)) w' →
  ∃ G, gs w !! g0 = Some G ∧ logged G = false.
Proof. intros Hs. open_step Hs. by eexists. Qed.

Lemma line_of_step w a ev w' l g :
  step w a = Ok ev w' → line_of w l g → line_of w' l g.
Proof.
  intros Hs (G & HG & Hl & ->).
  destruct (step_logged _ _ _ _ _ _ Hs HG Hl) as (G' & HG' & Hl' & <- & <-).
  by exists G'.
Qed.

Lemma step_signed config evs w a ev w' :
  Inv config w → signed w (writers evs) → step w a = Ok ev w' →
  signed w' (writers (evs ++ [ev])).
Proof.
  intros HI (Hnd & Hiff & Hf2) Hs. rewrite writers_snoc.
  assert (Forall2 (line_of w') (logs w) (writers evs)) as Hold.
  { eapply Forall2_impl; [|exact Hf2]. intros l g. by apply line_of_step with a ev. }
  assert (∀ g, g ∈ writers evs → ∃ G, gs w' !! g = Some G ∧ logged G = true) as Hkeep.
  { intros g (G & HG & Hl)%Hiff.
    destruct (step_logged _ _ _ _ _ _ Hs HG Hl) as (G' & HG' & Hl' & _). eauto. }
  unfold signed. rewrite (step_logs _ _ _ _ Hs).
  assert ((∃ g0 msg, ev = EvGo g0 (OpLog msg)) ∨
          (∀ g0 msg, ev ≠ EvGo g0 (OpLog msg))) as [(g0 & msg & ->)|Hev].
  { destruct ev as [| | | | |g0 []]; eauto. }
  - destruct (step_log_first _ _ _ _ _ Hs) as (G0 & HG0 & Hl0).
    assert (g0 ∉ writers evs) as Hnew.
    { intros (G & HG & Hl)%Hiff. simplify_eq. by rewrite Hl0 in Hl. }
    destruct (step_log_line _ _ _ _ _ _ HI Hs) as (G' & HG' & Hl' & Hmsg).
    split; [|split].
    + apply list.NoDup_app. split; [done|]. split; [|apply NoDup_singleton].
      intros g Hg ->%list_elem_of_singleton. done.
    + intros g. split.
      * intros [Hg| ->%list_elem_of_singleton]%elem_of_app; [by apply Hkeep|eauto].
      * intros (G & HG & Hl). apply elem_of_app.
        destruct (step_logged_inv _ _ _ _ _ _ Hs HG Hl) as [Hw|[msg' Hm]].
        -- left. by apply Hiff.
        -- right. simplify_eq. apply list_elem_of_here.
    + apply Forall2_app; [done|]. constructor; [|constructor]. by exists G'.
  - assert (match ev with EvGo _ (OpLog msg) => [msg] | _ => [] end = []) as ->.
    { destruct ev as [| | | | |g0 []]; try done. by destruct (Hev g0 msg). }
    assert (match ev with EvGo g (OpLog _) => [g] | _ => [] end = []) as ->.
    { destruct ev as [| | | | |g0 []]; try done. by destruct (Hev g0 msg). }
    rewrite !app_nil_r. split; [done|]. split; [|done].
    intros g. split; [by apply Hkeep|].
    intros (G & HG & Hl).
    destruct (step_logged_inv _ _ _ _ _ _ Hs HG Hl) as [Hw|[msg' Hm]].
    + by apply Hiff.
    + by destruct (Hev g msg').
Qed.

Lemma reachable_signed config evs w : reachable config evs w → signed w (writers evs).
Proof.
  intros (w0 & acts & Hb & Hrun).
  assert (Inv config w ∧ signed w (writers evs)) as [_ ?]; [|done].
  revert acts evs w Hrun.
  apply (run_ind (λ evs w, Inv config w ∧ signed w (writers evs))).
  - pose proof (boot_world _ _ Hb) as (Hg & _ & _ & Hl & _).
    split; [by apply boot_Inv|]. split; [apply NoDup_nil_2|]. split.
    + intros g. split; [by intros ?%elem_of_nil|].
      intros (G & HG & _). by rewrite Hg in HG.
    + rewrite Hl. constructor.
  - intros evs w a ev w' [HI Hsg] Hs.
    split; [by eapply step_Inv|by eapply step_signed].
Qed.

(** X9: the log holds exactly one line per probe whose lookup failed and
    that has run line 96, in the order in which the probes ran it: no
    probe wrote twice, the probes that wrote are those that have run line
    96, and the k-th line is the message of the k-th of them, with its
    own host and its own error; a probe whose lookup succeeded logs
    nothing. *)
Theorem log_lines config evs w :
  reachable config evs w →
  NoDup (writers evs) ∧
  (∀ g, g ∈ writers evs ↔ ∃ G, gs w !! g = Some G ∧ logged G = true) ∧
  Forall2 (line_of w) (logs w) (writers evs) ∧
  length (logs w) = tally logged (gs w) ∧
  (∀ l, l ∈ logs w →
     ∃ g G, gs w !! g = Some G ∧ logged G = true ∧ is_Some (g_err G) ∧
            OpLog l ∈ ops_of g evs ∧
            l = lookup_message (g_host G) (g_err G)) ∧
  (∀ g G, gs w !! g = Some G → g_err G = None →
     tally is_log (ops_of g evs) = 0%nat).
Proof.
  intros Hr. destruct (reachable_logbook _ _ _ Hr) as [Hn Hl].
  destruct (reachable_signed _ _ _ Hr) as (Hnd & Hiff & Hf2).
  do 4 (split; [done|]). split.
  - intros l Hin. destruct (Hl _ Hin) as (g & G & HG & Hlg & ->).
    exists g, G. split; [done|]. split; [done|].
    assert (is_Some (g_err G)) as [e He].
    { unfold logged in Hlg. destruct (g_err G); [done|]. by rewrite andb_false_r in Hlg. }
    split; [by rewrite He|]. split; [|done].
    destruct (probe_history _ _ _ _ _ Hr HG) as (v1 & t2 & v2 & a & b & -> & _).
    unfold logged in Hlg. apply andb_prop in Hlg as [Hidx%Nat.leb_le _].
    unfold progress. rewrite He. unfold script.
    apply (list_elem_of_lookup_2 _ 6%nat).
    rewrite lookup_take_lt by lia. done.
  - intros g G HG Herr.
    destruct (probe_history _ _ _ _ _ Hr HG) as (v1 & t2 & v2 & a & b & -> & _).
    rewrite Herr. unfold script. simpl.
    generalize (progress G). intros n.
    do 12 (destruct n as [|n]; [done|]). done.
Qed.

Lemma log_lines_witness :
  ∃ evs w, outcome mixed_config mixed_schedule = Some (evs, w) ∧
    writers evs = [1%nat] ∧
    logs w = ["could not lookup host 'bad.invalid': no such host"] ∧
    NoDup (writers evs) ∧
    (∀ g, g ∈ writers evs ↔ ∃ G, gs w !! g = Some G ∧ logged G = true) ∧
    Forall2 (line_of w) (logs w) (writers evs) ∧
    length (logs w) = tally logged (gs w) ∧
    (∀ l, l ∈ logs w →
       ∃ g G, gs w !! g = Some G ∧ logged G = true ∧ is_Some (g_err G) ∧
              OpLog l ∈ ops_of g evs ∧
              l = lookup_message (g_host G) (g_err G)) ∧
    (∀ g G, gs w !! g = Some G → g_err G = None →
       tally is_log (ops_of g evs) = 0%nat).
Proof.
  eexists _, _. split; [vm_compute; reflexivity|]. do 2 (split; [reflexivity|]).
  eapply (log_lines mixed_config).
  apply outcome_reachable with mixed_schedule. vm_compute. reflexivity.
Defined.

(** ** Errors after completed cycles *)

(** X10: once the calls of [Collect] made so far have all returned, the
    error count stored for a host is the number of its probes whose
    lookup returned an error, as an int, and 0 if none did; the error each
    probe holds is the one its lookup returned. *)
Theorem errors_after_cycles config evs w host :
  reachable config evs w → quiescent w →
  get (totalErrorCount (coll w)) host = wrap64 (Z.of_nat (tally (failed host) (gs w))) ∧
  (tally (failed host) (gs w) ≤ length (calls w) * occurrences host (Hosts config))%nat ∧
  (∀ g G, gs w !! g = Some G → ops_of g evs !! 1%nat = Some (OpLookup (g_err G))).
Proof.
  intros Hr Hq. pose proof (reachable_Inv _ _ _ Hr) as HI.
  assert (∀ g G, gs w !! g = Some G → g_pc G = LExit) as Hex
    by (intros g G HG; by eapply quiescent_exited).
  split; [|split].
  - pose proof (inv_count _ _ HI Errors host) as Hc. simpl in Hc. rewrite Hc.
    do 2 f_equal. apply tally_ext. intros g G HG.
    unfold counted, failed, hosted, stored. rewrite (Hex _ _ HG). simpl.
    by rewrite andb_true_r.
  - pose proof (inv_hosts _ _ HI host) as Hh.
    destruct (quiescent_calls host _ Hq) as [Hs Hp]. rewrite Hs, Hp in Hh.
    assert (tally (failed host) (gs w) ≤ tally (hosted host) (gs w))%nat; [|lia].
    pose proof (tally_split (failed host) (hosted host) (λ _, false) (gs w)) as Hsp.
    rewrite (tally_none (λ _, false)) in Hsp by done.
    rewrite Nat.add_0_r in Hsp. apply Hsp. intros G HG. left.
    unfold failed in HG. by destruct (hosted host G).
  - intros g G HG.
    destruct (probe_script _ _ _ _ _ Hr HG (Hex _ _ HG)) as (v1 & t2 & v2 & a & b & -> & _).
    done.
Qed.

Lemma errors_after_cycles_witness :
  ∃ evs w, outcome mixed_config mixed_schedule = Some (evs, w) ∧
    tally (failed "bad.invalid") (gs w) = 1%nat ∧
    tally (failed "example.org") (gs w) = 0%nat ∧
    get (totalErrorCount (coll w)) "bad.invalid"
    = wrap64 (Z.of_nat (tally (failed "bad.invalid") (gs w))) ∧
    (tally (failed "bad.invalid") (gs w)
     ≤ length (calls w) * occurrences "bad.invalid" (Hosts mixed_config))%nat ∧
    (∀ g G, gs w !! g = Some G → ops_of g evs !! 1%nat = Some (OpLookup (g_err G))).
Proof.
  eexists _, _. split; [vm_compute; reflexivity|].
  split; [reflexivity|]. split; [reflexivity|].
  eapply (errors_after_cycles mixed_config).
  - apply outcome_reachable with mixed_schedule. vm_compute. reflexivity.
  - reflexivity.
Defined.

(** ** Only hosts of the registry *)

Lemma occurrences_elem host l : (1 ≤ occurrences host l)%nat → host ∈ l.
Proof.
  intros (i & x & Hi & Hx)%tally_pos. apply bool_decide_eq_true in Hx as ->.
  by eapply list_elem_of_lookup_2.
Qed.

Lemma goroutine_registered config w g G :
  Inv config w → gs w !! g = Some G → g_host G ∈ Hosts config.
Proof.
  intros HI HG. apply occurrences_elem.
  pose proof (inv_hosts _ _ HI (g_host G)) as Hh.
  assert (hosted (g_host G) G = true) as Hhost
    by (unfold hosted; by rewrite bool_decide_eq_true_2).
  pose proof (tally_lookup _ _ _ _ HG Hhost).
  destruct (occurrences (g_host G) (Hosts config)); lia.
Qed.

Lemma step_registered config w a ev w' :
  Inv config w → registered config w → step w a = Ok ev w' → registered config w'.
Proof.
  intros HI [Hk Hl] Hs. split.
  - intros t host Hsome.
    pose proof (Hk Total host) as HkT. pose proof (Hk Errors host) as HkE.
    open_step Hs; simpl in *; try (by destruct t; auto).
    all: pose proof (goroutine_registered _ _ _ _ HI HG) as Hreg; simpl in Hreg.
    all: destruct t; simpl in *; auto.
    all: apply lookup_insert_is_Some in Hsome as [->|[_ ?]]; auto.
  - intros m Hm. rewrite (step_ch _ _ _ _ Hs) in Hm.
    apply elem_of_app in Hm as [Hm|Hm]; [by apply Hl|].
    destruct ev as [| | | | |g []]; try (by apply elem_of_nil in Hm).
    apply list_elem_of_singleton in Hm as ->.
    destruct (step_send _ _ _ _ _ Hs) as (G & HG & Hlab & _).
    exists (g_host G). split; [by eapply goroutine_registered|done].
Qed.

Lemma reachable_registered config evs w : reachable config evs w → registered config w.
Proof.
  apply reachable_ind.
  - intros w0 (_ & _ & Hc & _ & _ & HT & HE)%boot_world. split.
    + intros [] host; simpl; rewrite ?HT, ?HE, lookup_empty; by intros [].
    + intros m Hm. rewrite Hc in Hm. by apply elem_of_nil in Hm.
  - intros. by eapply step_registered.
Qed.

(** X11: nothing is ever recorded for a host outside the registry: every
    goroutine probes a listed host, every key of the two count maps is a
    listed host, and every sample is labelled with a listed host. *)
Theorem registered_hosts_only config evs w :
  reachable config evs w →
  (∀ g G, gs w !! g = Some G → g_host G ∈ Hosts config) ∧
  (∀ t host, is_Some (table t (coll w) !! host) → host ∈ Hosts config) ∧
  (∀ m, m ∈ ch w → ∃ host, host ∈ Hosts config ∧ labelValues m = [host]).
Proof.
  intros Hr. destruct (reachable_registered _ _ _ Hr) as [Hk Hl].
  split; [|done]. intros g G HG.
  by eapply goroutine_registered, HG; eapply reachable_Inv.
Qed.

Lemma registered_hosts_only_witness :
  ∃ evs w, outcome mixed_config mixed_schedule = Some (evs, w) ∧
    is_Some (totalErrorCount (coll w) !! "bad.invalid") ∧
    (∀ g G, gs w !! g = Some G → g_host G ∈ Hosts mixed_config) ∧
    (∀ t host, is_Some (table t (coll w) !! host) → host ∈ Hosts mixed_config) ∧
    (∀ m, m ∈ ch w → ∃ host, host ∈ Hosts mixed_config ∧ labelValues m = [host]).
Proof.
  eexists _, _. split; [vm_compute; reflexivity|].
  split; [by eexists; vm_compute|].
  eapply (registered_hosts_only mixed_config).
  apply outcome_reachable with mixed_schedule. vm_compute. reflexivity.
Defined.

(** ** The order of the samples on the channel *)

(** X12: the channel holds the samples in the order they were sent, and
    those of one probe in program order: whatever the interleaving, the
    samples a goroutine has sent form a sublist of the channel, attempt
    count first, error count second, elapsed time last. *)
Theorem samples_in_order config evs w g G :
  reachable config evs w → gs w !! g = Some G →
  ch w = sent evs ∧
  sends (ops_of g evs) `sublist_of` ch w ∧
  ∃ a b,
    sends (ops_of g evs) =
    take (index (g_pc G) - 12)
      [mkMetric (total (coll w)) CounterValue (FromInt a) [g_host G];
       mkMetric (totalError (coll w)) CounterValue (FromInt b) [g_host G];
       mkMetric (latency (coll w)) GaugeValue (Seconds (g_elapsed G)) [g_host G]].
Proof.
  intros Hr HG. pose proof (reachable_sent _ _ _ Hr) as Hch.
  split; [done|]. split.
  - rewrite Hch. unfold sends, sent, ops_of. rewrite omap_omap.
    apply omap_sublist. intros [| | | | |g' []] y; simpl; try done;
      case_decide; simpl; done.
  - destruct (probe_history _ _ _ _ _ Hr HG) as (v1 & t2 & v2 & a & b & -> & Hel & _).
    exists a, b. unfold progress, script.
    destruct G as [gc gh pc gst ger gel gtm]; simpl in *.
    destruct pc, ger; simpl in *; try done.
    all: rewrite Hel by lia; done.
Qed.

Lemma samples_in_order_witness :
  ∃ evs w G, outcome twice_config stale_schedule = Some (evs, w) ∧
    gs w !! 0%nat = Some G ∧
    ch w = sent evs ∧
    sends (ops_of 0 evs) `sublist_of` ch w ∧
    ∃ a b,
      sends (ops_of 0 evs) =
      take (index (g_pc G) - 12)
        [mkMetric (total (coll w)) CounterValue (FromInt a) [g_host G];
         mkMetric (totalError (coll w)) CounterValue (FromInt b) [g_host G];
         mkMetric (latency (coll w)) GaugeValue (Seconds (g_elapsed G)) [g_host G]].
Proof.
  eexists _, _, _. split; [vm_compute; reflexivity|]. split; [reflexivity|].
  eapply (samples_in_order twice_config).
  - apply outcome_reachable with stale_schedule. vm_compute. reflexivity.
  - reflexivity.
Defined.

(** ** The wait group *)

(** X13: the counter of the [wg] of a call is the number of goroutines
    the call has still to launch plus the number of its goroutines that
    have not run [wg.Done()]; it is never negative, and it is positive
    whenever one of its goroutines is about to run [wg.Done()]. *)
Theorem waitgroup_counter config evs w c C :
  reachable config evs w → calls w !! c = Some C →
  c_wg C = Z.of_nat (length (pending C) + tally (live c) (gs w)) ∧
  0 ≤ c_wg C ∧
  (∀ g G, gs w !! g = Some G → g_call G = c → g_pc G ≠ LExit → 1 ≤ c_wg C).
Proof.
  intros Hr HC. pose proof (inv_wg _ _ (reachable_Inv _ _ _ Hr) _ _ HC) as Hw.
  split; [done|]. split; [lia|]. intros g G HG Hc Hpc.
  assert (live c G = true) as Hl.
  { unfold live. rewrite bool_decide_eq_true_2 by done.
    by rewrite bool_decide_eq_false_2. }
  pose proof (tally_lookup _ _ _ _ HG Hl). lia.
Qed.

Lemma waitgroup_counter_witness :
  ∃ evs w C, outcome two_config race_schedule = Some (evs, w) ∧
    calls w !! 0%nat = Some C ∧ c_wg C = 2 ∧
    c_wg C = Z.of_nat (length (pending C) + tally (live 0) (gs w)) ∧
    0 ≤ c_wg C ∧
    (∀ g G, gs w !! g = Some G → g_call G = 0%nat → g_pc G ≠ LExit → 1 ≤ c_wg C).
Proof.
  eexists _, _, _. split; [vm_compute; reflexivity|]. split; [reflexivity|].
  split; [reflexivity|].
  eapply (waitgroup_counter two_config).
  - apply outcome_reachable with race_schedule. vm_compute. reflexivity.
  - reflexivity.
Defined.

(** ** What a statement leaves alone *)

(** X14: a statement changes the count of a host in a map only if it is
    the store of an increment of that map by a probe of that host; all
    other counts, and all counts under any other statement, stay. *)
Theorem counts_frame w a ev w' t host :
  step w a = Ok ev w' →
  get (table t (coll w')) host ≠ get (table t (coll w)) host →
  ∃ g G, a = Go g ∧ gs w !! g = Some G ∧ g_host G = host ∧ at_store t G = true.
Proof.
  intros Hs Hne. open_step Hs; simpl in *; try (by destruct t).
  all: destruct t; simpl in *; try done.
  all: rewrite get_insert in Hne; case_decide; [subst|done].
  all: by eexists _, _.
Qed.

Lemma counts_frame_witness :
  ∃ evs w ev w', outcome failing_config
                   (launch 0 1 ++ [Go 0; Resolve 0 (Some "no such host"); Go 0; Go 0])
                 = Some (evs, w) ∧
    step w (Go 0) = Ok ev w' ∧
    ∃ g G, Go 0 = Go g ∧ gs w !! g = Some G ∧ g_host G = "bad.invalid" ∧
           at_store Errors G = true.
Proof.
  eexists _, _, _, _. split; [vm_compute; reflexivity|].
  split; [vm_compute; reflexivity|].
  eapply (counts_frame _ (Go 0)); [reflexivity|]. by vm_compute.
Defined.

(** ** What is never assigned *)

(** X15: no statement of [Collect] or [resolveHost] assigns the registry
    or a descriptor: in every reachable state the collector still has the
    hosts of the configuration and the three descriptors
    [NewDNSCollector] built. *)
Theorem registry_immutable config evs w :
  reachable config evs w →
  ∃ e0, NewDNSCollector config = (Some e0, None) ∧
    hosts (coll w) = Hosts config ∧
    total (coll w) = total e0 ∧ totalError (coll w) = totalError e0 ∧
    latency (coll w) = latency e0.
Proof.
  intros Hr.
  destruct (inv_static _ _ (reachable_Inv _ _ _ Hr)) as (e0 & Hnew & H1 & H2 & H3 & Hh).
  exists e0. repeat split; try done.
  unfold NewDNSCollector in Hnew. by simplify_eq.
Qed.

Lemma registry_immutable_witness :
  ∃ evs w, outcome mixed_config mixed_schedule = Some (evs, w) ∧
  ∃ e0, NewDNSCollector mixed_config = (Some e0, None) ∧
    hosts (coll w) = Hosts mixed_config ∧
    total (coll w) = total e0 ∧ totalError (coll w) = totalError e0 ∧
    latency (coll w) = latency e0.
Proof.
  eexists _, _. split; [vm_compute; reflexivity|].
  eapply (registry_immutable mixed_config).
  apply outcome_reachable with mixed_schedule. vm_compute. reflexivity.
Defined.
